(** * OpenCache: an LRU cache with lazy TTL expiry and an append-only log

    A shallow embedding of [cache/cache.go] and [internal/utils.go].

    - The mutex is not modelled: every operation is taken to run alone.
    - [time.Now()] is an argument ([now], nanoseconds on one time line);
      [time.Duration] is a 64-bit integer of nanoseconds.
    - Keys are Go interface values: [nil], strings, integers, booleans and
      slices (the last stand for every type that is not comparable).
      Floating-point keys are not modelled.
    - A pointer to a [list.Element] is an address (a [nat]); the element
      keeps its address next to the entry it points to, so the index map
      and the recency list alias the same entry.
    - The disk is a finite map from paths to nodes.  A regular file is a
      list of lines; a line is kept in parsed form (the fields of a JSON
      object, or text [json.Unmarshal] rejects, or a line that exceeds the
      64 KiB token limit of [bufio.Scanner]).  The text layer of
      [encoding/json] (escaping, UTF-8) is outside the model.
    - A call ends in an [outcome]: it returns its result or it panics. The
      cache and the disk it leaves behind are kept in both cases, since
      the deferred unlock and restore run on a panic too. *)

From Stdlib Require Import ZArith Lia Ascii String.
From stdpp Require Import base option strings list countable gmap fin_maps.

Local Open Scope Z_scope.

(** ** Go values *)

(** What a caller may pass as a key. *)
Inductive gokey :=
| KNil
| KString (s : string)
| KInt (n : Z)
| KBool (b : bool)
| KSlice (l : list Z).

(** What a caller may pass as a value. [VFloat64 n] is the [float64] equal
    to the integer [n]; [VChan] stands for the values [encoding/json]
    cannot encode. *)
Inductive govalue :=
| VNil
| VBool (b : bool)
| VInt (n : Z)
| VFloat64 (n : Z)
| VString (s : string)
| VChan (id : nat).

#[global] Instance gokey_eq_dec : EqDecision gokey.
Proof. solve_decision. Defined.

#[global] Instance govalue_eq_dec : EqDecision govalue.
Proof. solve_decision. Defined.

Definition gokey_code (k : gokey) : unit + (string + (Z + (bool + list Z))) :=
  match k with
  | KNil => inl tt
  | KString s => inr (inl s)
  | KInt n => inr (inr (inl n))
  | KBool b => inr (inr (inr (inl b)))
  | KSlice l => inr (inr (inr (inr l)))
  end.

Definition gokey_decode (c : unit + (string + (Z + (bool + list Z)))) : gokey :=
  match c with
  | inl _ => KNil
  | inr (inl s) => KString s
  | inr (inr (inl n)) => KInt n
  | inr (inr (inr (inl b))) => KBool b
  | inr (inr (inr (inr l))) => KSlice l
  end.

#[global] Instance gokey_countable : Countable gokey.
Proof.
  refine (inj_countable' gokey_code gokey_decode _).
  intros []; reflexivity.
Defined.

(** Wrap-around of a 64-bit signed integer. *)
Definition wrap64 (z : Z) : Z := (z + 2 ^ 63) mod 2 ^ 64 - 2 ^ 63.

Definition in_int64 (z : Z) : bool := (- 2 ^ 63 <=? z) && (z <? 2 ^ 63).

(** [time.Millisecond] in nanoseconds. *)
Definition Millisecond : Z := 1000000.

(** [Duration.Milliseconds]: integer division truncates toward zero. *)
Definition Milliseconds (d : Z) : Z := Z.quot d Millisecond.

(** [Time.Add] and [Time.After]. *)
Definition Time_Add (t d : Z) : Z := t + d.
Definition Time_After (t u : Z) : bool := u <? t.

(** ** The cache structure *)

Record entry := mkEntry {
  key : gokey;
  value : govalue;
  expiresAt : option Z
}.

Record Element := mkElement {
  addr : nat;
  Value : entry
}.

Record OpenCache := mkOpenCache {
  Cache : gmap gokey nat;
  LRU_deque : list Element;
  Capacity : Z;
  Persistent : bool;
  LogPath : string;
  (* the next address the allocator hands out *)
  heap_next : nat
}.

Definition with_index (kv : OpenCache) (m : gmap gokey nat) : OpenCache :=
  mkOpenCache m (LRU_deque kv) (Capacity kv) (Persistent kv) (LogPath kv)
    (heap_next kv).

Definition with_deque (kv : OpenCache) (l : list Element) : OpenCache :=
  mkOpenCache (Cache kv) l (Capacity kv) (Persistent kv) (LogPath kv)
    (heap_next kv).

Definition with_Persistent (kv : OpenCache) (b : bool) : OpenCache :=
  mkOpenCache (Cache kv) (LRU_deque kv) (Capacity kv) b (LogPath kv)
    (heap_next kv).

Definition with_LogPath (kv : OpenCache) (p : string) : OpenCache :=
  mkOpenCache (Cache kv) (LRU_deque kv) (Capacity kv) (Persistent kv) p
    (heap_next kv).

Definition with_heap_next (kv : OpenCache) (n : nat) : OpenCache :=
  mkOpenCache (Cache kv) (LRU_deque kv) (Capacity kv) (Persistent kv)
    (LogPath kv) n.

(** ** container/list, on addresses *)

Definition is_at (p : nat) (e : Element) : bool := Nat.eqb (addr e) p.

(** [elem.Value.( *entry )]: the entry the element at address [p] holds. *)
Definition deref (l : list Element) (p : nat) : option entry :=
  Value <$> List.find (is_at p) l.

(** Assignment through the pointer: the entry at [p] becomes [ent]. *)
Definition store (l : list Element) (p : nat) (ent : entry) : list Element :=
  List.map (fun e => if is_at p e then mkElement p ent else e) l.

Definition Remove (l : list Element) (p : nat) : list Element :=
  List.filter (fun e => negb (is_at p e)) l.

Definition MoveToFront (l : list Element) (p : nat) : list Element :=
  match List.find (is_at p) l with
  | Some e => e :: Remove l p
  | None => l
  end.

Definition PushFront (l : list Element) (p : nat) (ent : entry)
  : list Element :=
  mkElement p ent :: l.

Definition Back (l : list Element) : option Element := last l.

(** ** internal/utils.go *)

Definition Comparable (k : gokey) : bool :=
  match k with
  | KSlice _ => false
  | _ => true
  end.

Definition ValidateKey (k : gokey) : option string :=
  match k with
  | KNil => Some "key cannot be nil"%string
  | _ =>
      if Comparable k then None
      else Some "invalid key type: not comparable"%string
  end.

(** ** The log: records, their JSON form, and the disk *)

Record LogEntry := mkLogEntry {
  Op : string;
  Key : string;
  (* field [Value] of the Go struct *)
  Val : govalue;
  TTLms : Z
}.

(** The JSON values a record holds in its fields. Numbers are integer
    literals, which is what the writer produces. *)
Inductive jscalar :=
| JNull
| JBool (b : bool)
| JNum (n : Z)
| JStr (s : string).

(** A line of a log file: the fields of a JSON object in the order they
    appear, or text that is not a JSON object, or a line too long for the
    scanner. *)
Inductive line :=
| LJson (fields : list (string * jscalar))
| LRaw (text : string)
| LOverlong.

Inductive fnode :=
| Dir
| File (lines : list line).

(** The errors [ReplayLog] can return. *)
Inductive error :=
| ENOENT
| EISDIR
| ErrTooLong.

Inductive outcome (A : Type) :=
| Return (a : A)
| Panic (msg : string).

Arguments Return {A} a.
Arguments Panic {A} msg.

(** [json.Marshal] of a [LogEntry], following the struct tags: [value] and
    [ttl_ms] carry [omitempty]. A channel cannot be encoded. *)
Definition json_of_go (v : govalue) : option jscalar :=
  match v with
  | VNil => Some JNull
  | VBool b => Some (JBool b)
  | VInt n => Some (JNum n)
  | VFloat64 n => Some (JNum n)
  | VString s => Some (JStr s)
  | VChan _ => None
  end.

Definition ttl_field (t : Z) : list (string * jscalar) :=
  if t =? 0 then [] else [("ttl_ms"%string, JNum t)].

Definition json_Marshal (e : LogEntry) : option (list (string * jscalar)) :=
  match Val e with
  | VNil =>
      Some ([("op"%string, JStr (Op e)); ("key"%string, JStr (Key e))]
              ++ ttl_field (TTLms e))
  | v =>
      j ← json_of_go v;
      Some ([("op"%string, JStr (Op e)); ("key"%string, JStr (Key e));
             ("value"%string, j)] ++ ttl_field (TTLms e))
  end.

(** [json.Unmarshal] into a [LogEntry]. A JSON number stored in an
    [interface{}] becomes a [float64]; field names match without regard to
    (ASCII) case; a value of the wrong type is an error, and so is a
    [ttl_ms] outside [int64]. *)
Definition go_of_json (j : jscalar) : govalue :=
  match j with
  | JNull => VNil
  | JBool b => VBool b
  | JNum n => VFloat64 n
  | JStr s => VString s
  end.

Definition fold_ascii (a : ascii) : ascii :=
  let n := nat_of_ascii a in
  if (Nat.leb 65 n && Nat.leb n 90)%bool then ascii_of_nat (n + 32) else a.

Fixpoint fold_name (s : string) : string :=
  match s with
  | EmptyString => EmptyString
  | String a r => String (fold_ascii a) (fold_name r)
  end.

Definition names_field (name tag : string) : bool :=
  String.eqb (fold_name name) tag.

Definition set_field (name : string) (j : jscalar) (e : LogEntry)
  : option LogEntry :=
  if names_field name "op" then
    match j with
    | JStr s => Some (mkLogEntry s (Key e) (Val e) (TTLms e))
    | JNull => Some e
    | _ => None
    end
  else if names_field name "key" then
    match j with
    | JStr s => Some (mkLogEntry (Op e) s (Val e) (TTLms e))
    | JNull => Some e
    | _ => None
    end
  else if names_field name "value" then
    Some (mkLogEntry (Op e) (Key e) (go_of_json j) (TTLms e))
  else if names_field name "ttl_ms" then
    match j with
    | JNum n =>
        if in_int64 n then Some (mkLogEntry (Op e) (Key e) (Val e) n)
        else None
    | JNull => Some e
    | _ => None
    end
  else Some e.

Fixpoint decode_fields (fs : list (string * jscalar)) (e : LogEntry)
  : option LogEntry :=
  match fs with
  | [] => Some e
  | (name, j) :: rest => e' ← set_field name j e; decode_fields rest e'
  end.

Definition json_Unmarshal (l : line) : option LogEntry :=
  match l with
  | LJson fs => decode_fields fs (mkLogEntry EmptyString EmptyString VNil 0)
  | _ => None
  end.

(** [os.OpenFile(path, O_APPEND|O_CREATE|O_WRONLY, 0644)]: the lines already
    in the file, or [None] when the open fails (the path is a directory). *)
Definition OpenFile_append (fs : gmap string fnode) (path : string)
  : option (list line) :=
  match fs !! path with
  | None => Some []
  | Some (File ls) => Some ls
  | Some Dir => None
  end.

(** [os.Open]: a directory can be opened, reading from it fails. *)
Definition Open (fs : gmap string fnode) (path : string) : error + fnode :=
  match fs !! path with
  | None => inl ENOENT
  | Some n => inr n
  end.

Definition default_log : string := "appendonly.aof".

(** [data, _ := json.Marshal(entry)] followed by a newline: when the
    encoder fails [data] is empty and the line is blank. *)
Definition log_line (e : LogEntry) : line :=
  match json_Marshal e with
  | Some j => LJson j
  | None => LRaw EmptyString
  end.

Definition AppendToLog (kv : OpenCache) (fs : gmap string fnode)
    (e : LogEntry) : OpenCache * gmap string fnode :=
  let kv1 :=
    if Nat.eqb (String.length (LogPath kv)) 0
    then with_LogPath kv default_log else kv in
  match OpenFile_append fs (LogPath kv1) with
  | None => (kv1, fs)
  | Some ls => (kv1, <[LogPath kv1 := File (ls ++ [log_line e])]> fs)
  end.

(** [key.(string)] panics when the key is not a string. *)
Definition makeLogEntry (op : string) (k : gokey) (v : govalue)
    (ttl : option Z) : outcome LogEntry :=
  match k with
  | KString strKey =>
      let ttlms := match ttl with Some d => Milliseconds d | None => 0 end in
      Return (mkLogEntry op strKey v ttlms)
  | _ => Panic "interface conversion: interface {} is not string"
  end.

(** The tail shared by the three mutating paths:
    [if kv.Persistent { kv.AppendToLog(makeLogEntry(...)) }; return true]. *)
Definition persist (op : string) (k : gokey) (v : govalue) (ttl : option Z)
    (kv : OpenCache) (fs : gmap string fnode)
  : outcome bool * OpenCache * gmap string fnode :=
  if Persistent kv then
    match makeLogEntry op k v ttl with
    | Return e => let '(kv', fs') := AppendToLog kv fs e in
                  (Return true, kv', fs')
    | Panic m => (Panic m, kv, fs)
    end
  else (Return true, kv, fs).

(** ** The cache operations *)

Definition NewOpenCache (capacity : Z) (persistent : bool) (logPath : string)
  : OpenCache :=
  let capacity := if capacity <? 1 then 1 else capacity in
  mkOpenCache ∅ [] capacity persistent logPath 0%nat.

(** [entry.expiresAt != nil && time.Now().After( *entry.expiresAt )]. *)
Definition expired (now : Z) (ent : entry) : bool :=
  match expiresAt ent with
  | Some t => Time_After now t
  | None => false
  end.

(** An address is dereferenced by finding its element in the list. The
    index map of a reachable cache holds addresses of list elements only
    (see [wf]), so the panic below is never met there. *)
Definition dangling : string := "element is not in the list".

Definition Get (kv : OpenCache) (now : Z) (k : gokey)
  : outcome (govalue * bool) * OpenCache :=
  match ValidateKey k with
  | Some _ => (Return (VNil, false), kv)
  | None =>
      match Cache kv !! k with
      | Some elem =>
          match deref (LRU_deque kv) elem with
          | Some ent =>
              if expired now ent then
                let kv1 := with_index kv (delete (key ent) (Cache kv)) in
                (Return (VNil, false),
                 with_deque kv1 (Remove (LRU_deque kv1) elem))
              else
                (Return (value ent, true),
                 with_deque kv (MoveToFront (LRU_deque kv) elem))
          | None => (Panic dangling, kv)
          end
      | None => (Return (VNil, false), kv)
      end
  end.

(** The block of [Set] guarded by [kv.LRU_deque.Len() >= kv.Capacity]:
    the back element, if there is one, leaves the index map and the
    list. *)
Definition evict (kv : OpenCache) : OpenCache :=
  if Capacity kv <=? Z.of_nat (length (LRU_deque kv)) then
    match Back (LRU_deque kv) with
    | Some back =>
        let kv1 := with_index kv (delete (key (Value back)) (Cache kv)) in
        with_deque kv1 (Remove (LRU_deque kv1) (addr back))
    | None => kv
    end
  else kv.

(** The method [Set]; the underscore keeps it apart from Rocq's sort. *)
Definition Set_ (kv : OpenCache) (fs : gmap string fnode) (now : Z)
    (k : gokey) (v : govalue) (ttl_duration : option Z)
  : outcome bool * OpenCache * gmap string fnode :=
  match ValidateKey k with
  | Some _ => (Return false, kv, fs)
  | None =>
      match Cache kv !! k with
      | Some elem =>
          match deref (LRU_deque kv) elem with
          | Some ent =>
              let ent' :=
                mkEntry (key ent) v (Time_Add now <$> ttl_duration) in
              let l := store (LRU_deque kv) elem ent' in
              let kv1 := with_deque kv (MoveToFront l elem) in
              persist "SET" k v ttl_duration kv1 fs
          | None => (Panic dangling, kv, fs)
          end
      | None =>
          let kv1 := evict kv in
          let expPtr := Time_Add now <$> ttl_duration in
          let elem := heap_next kv1 in
          let kv2 := with_heap_next kv1 (S elem) in
          let kv3 :=
            with_deque kv2
              (PushFront (LRU_deque kv2) elem (mkEntry k v expPtr)) in
          let kv4 := with_index kv3 (<[k := elem]> (Cache kv3)) in
          persist "SET" k v ttl_duration kv4 fs
      end
  end.

Definition Delete (kv : OpenCache) (fs : gmap string fnode) (k : gokey)
  : outcome bool * OpenCache * gmap string fnode :=
  match ValidateKey k with
  | Some _ => (Return false, kv, fs)
  | None =>
      match Cache kv !! k with
      | Some elem =>
          let kv1 := with_deque kv (Remove (LRU_deque kv) elem) in
          let kv2 := with_index kv1 (delete k (Cache kv1)) in
          persist "DELETE" k VNil None kv2 fs
      | None => (Return false, kv, fs)
      end
  end.

Definition Len (kv : OpenCache) : Z := Z.of_nat (size (Cache kv)).

(** ** Replay *)

(** The body of the scanning loop. [clock i] is what [time.Now()] reads
    while line [i] is applied. *)
Fixpoint replay_lines (clock : nat -> Z) (i : nat) (ls : list line)
    (kv : OpenCache) (fs : gmap string fnode)
  : outcome (option error) * OpenCache * gmap string fnode :=
  match ls with
  | [] => (Return None, kv, fs)
  | LOverlong :: _ => (Return (Some ErrTooLong), kv, fs)
  | l :: rest =>
      match json_Unmarshal l with
      | None => replay_lines clock (S i) rest kv fs
      | Some e =>
          if String.eqb (Op e) "SET" then
            let ttl :=
              if 0 <? TTLms e then Some (wrap64 (TTLms e * Millisecond))
              else None in
            match Set_ kv fs (clock i) (KString (Key e)) (Val e) ttl with
            | (Return _, kv', fs') => replay_lines clock (S i) rest kv' fs'
            | (Panic m, kv', fs') => (Panic m, kv', fs')
            end
          else if String.eqb (Op e) "DELETE" then
            match Delete kv fs (KString (Key e)) with
            | (Return _, kv', fs') => replay_lines clock (S i) rest kv' fs'
            | (Panic m, kv', fs') => (Panic m, kv', fs')
            end
          else replay_lines clock (S i) rest kv fs
      end
  end.

Definition ReplayLog (kv : OpenCache) (fs : gmap string fnode)
    (clock : nat -> Z) (filename : string)
  : outcome (option error) * OpenCache * gmap string fnode :=
  match Open fs filename with
  | inl err => (Return (Some err), kv, fs)
  | inr file =>
      let prevPersistent := Persistent kv in
      let kv1 := with_Persistent kv false in
      let '(r, kv2, fs2) :=
        match file with
        | File ls => replay_lines clock 0 ls kv1 fs
        | Dir => (Return (Some EISDIR), kv1, fs)
        end in
      (* the deferred restore runs on every exit, a panic included *)
      (r, with_Persistent kv2 prevPersistent, fs2)
  end.

(** ** Specification vocabulary *)

(** The index the recency list stands for: each key with the address of
    its element. *)
Definition index_of (l : list Element) : list (gokey * nat) :=
  (fun e => (key (Value e), addr e)) <$> l.

(** The representation invariant: the index map is exactly the index of
    the recency list, keys and addresses are not repeated, every address
    was handed out by the allocator, every key passed [ValidateKey], and
    the list fits the capacity. *)
Record wf (kv : OpenCache) : Prop := mk_wf {
  wf_index : Cache kv = list_to_map (index_of (LRU_deque kv));
  wf_keys : NoDup ((index_of (LRU_deque kv)).*1);
  wf_addrs : NoDup (addr <$> LRU_deque kv);
  wf_heap : Forall (fun e => (addr e < heap_next kv)%nat) (LRU_deque kv);
  wf_valid : Forall (fun e => ValidateKey (key (Value e)) = None)
               (LRU_deque kv);
  wf_cap : 1 <= Capacity kv;
  wf_len : Z.of_nat (length (LRU_deque kv)) <= Capacity kv
}.

(** Two caches that differ at most in their log path. *)
Definition same_mem (kv kv' : OpenCache) : Prop :=
  Cache kv' = Cache kv /\ LRU_deque kv' = LRU_deque kv
  /\ Capacity kv' = Capacity kv /\ heap_next kv' = heap_next kv
  /\ Persistent kv' = Persistent kv.

(** The states a caller can bring a cache to. A call that panics has
    already changed the cache, so its state counts too. *)
Inductive reachable : OpenCache -> Prop :=
| reach_New capacity persistent logPath :
    reachable (NewOpenCache capacity persistent logPath)
| reach_Get kv now k :
    reachable kv -> reachable (Get kv now k).2
| reach_Set kv fs now k v ttl :
    reachable kv -> reachable (Set_ kv fs now k v ttl).1.2
| reach_Delete kv fs k :
    reachable kv -> reachable (Delete kv fs k).1.2
| reach_ReplayLog kv fs clock filename :
    reachable kv -> reachable (ReplayLog kv fs clock filename).1.2.

(** The file [AppendToLog] writes to: the default name stands in for an
    empty path. *)
Definition log_file (kv : OpenCache) : string :=
  if Nat.eqb (String.length (LogPath kv)) 0 then default_log else LogPath kv.

(** A call of one of the two mutating operations, with the clock reading
    a [Set] takes. *)
Inductive call :=
| CallSet (now : Z) (k : gokey) (v : govalue) (ttl : option Z)
| CallDelete (k : gokey).

Definition do_call (kv : OpenCache) (fs : gmap string fnode) (c : call)
  : outcome bool * OpenCache * gmap string fnode :=
  match c with
  | CallSet now k v ttl => Set_ kv fs now k v ttl
  | CallDelete k => Delete kv fs k
  end.

(** Calls made one after the other. The result is [Some] exactly when every
    call returned [true]; a call that panics or returns [false] ends the
    run with [None]. *)
Fixpoint run_calls (cs : list call) (kv : OpenCache) (fs : gmap string fnode)
  : option (OpenCache * gmap string fnode) :=
  match cs with
  | [] => Some (kv, fs)
  | c :: rest =>
      match do_call kv fs c with
      | (Return true, kv', fs') => run_calls rest kv' fs'
      | _ => None
      end
  end.

(** The cache and the disk as the calls leave them, one after the other,
    whatever each call returned: a call that panics has already changed the
    cache, and a caller that recovers goes on from there. *)
Fixpoint run_states (cs : list call) (kv : OpenCache)
    (fs : gmap string fnode) : OpenCache * gmap string fnode :=
  match cs with
  | [] => (kv, fs)
  | c :: rest =>
      let r := do_call kv fs c in run_states rest r.1.2 r.2
  end.

Definition call_key (c : call) : gokey :=
  match c with
  | CallSet _ k _ _ => k
  | CallDelete k => k
  end.

Definition is_Set (c : call) : Prop :=
  match c with
  | CallSet _ _ _ _ => True
  | CallDelete _ => False
  end.

Definition is_KString (k : gokey) : Prop :=
  match k with
  | KString _ => True
  | _ => False
  end.

(** The keys of the recency list, most recently used first. *)
Definition keys_of (kv : OpenCache) : list gokey :=
  (index_of (LRU_deque kv)).*1.

(** The key and value pairs of the recency list, most recently used
    first. *)
Definition contents (kv : OpenCache) : list (gokey * govalue) :=
  (fun e => (key (Value e), value (Value e))) <$> LRU_deque kv.

(** A value [json.Unmarshal] gives back as it was encoded. *)
Definition json_stable (v : govalue) : Prop :=
  go_of_json <$> json_of_go v = Some v.

(** A call whose arguments have their Go types ([time.Duration] is a
    64-bit integer) and whose value survives the JSON encoding. *)
Definition call_ok (c : call) : Prop :=
  match c with
  | CallSet _ _ v ttl =>
      json_stable v
      /\ match ttl with Some d => in_int64 d = true | None => True end
  | CallDelete _ => True
  end.

(** A cache with the expiry times, the persistence flag and the log path
    blanked out. *)
Definition strip_entry (ent : entry) : entry :=
  mkEntry (key ent) (value ent) None.

Definition strip (e : Element) : Element :=
  mkElement (addr e) (strip_entry (Value e)).

Definition erase (kv : OpenCache) : OpenCache :=
  mkOpenCache (Cache kv) (strip <$> LRU_deque kv) (Capacity kv) false
    EmptyString (heap_next kv).

(** ** States and runs used as examples *)

(** Two keys set on a cache asked for with capacity 0. *)
Definition two_sets : OpenCache :=
  (Set_ (Set_ (NewOpenCache 0 false EmptyString) ∅ 0
           (KString "a") (VInt 1) None).1.2 ∅ 0
     (KString "b") (VInt 2) None).1.2.

(** One key set at time 100 with a TTL of 50. *)
Definition expiring : OpenCache :=
  (Set_ (NewOpenCache 2 false EmptyString) ∅ 100
     (KString "x") (VString "v") (Some 50)).1.2.

(** A cache of capacity 1, full. *)
Definition one_key : OpenCache :=
  (Set_ (NewOpenCache 1 false EmptyString) ∅ 0
     (KString "k") (VInt 10) None).1.2.

(** A disk on which the log path names a directory. *)
Definition log_is_dir : gmap string fnode := {[ "logs"%string := Dir ]}.

Definition three_sets : list call :=
  [CallSet 0 (KString "a") (VInt 1) None;
   CallSet 1 (KInt 7) (VInt 2) (Some 5);
   CallSet 2 (KString "c") (VInt 3) None].

Definition session_run : list call :=
  [CallSet 10 (KString "user") (VString "evan") None;
   CallSet 20 (KString "session") (VString "abc") (Some 2000000000);
   CallDelete (KString "user")].

(** ** Vocabulary of the further properties *)

(** The value [json.Unmarshal] gives for what [json.Marshal] wrote for
    [v]: a number comes back as a [float64]. *)
Definition decoded_value (v : govalue) : govalue :=
  match json_of_go v with
  | Some j => go_of_json j
  | None => VNil
  end.

(** The record a call hands to [AppendToLog]. *)
Definition call_record (c : call) : outcome LogEntry :=
  match c with
  | CallSet _ k v ttl => makeLogEntry "SET" k v ttl
  | CallDelete k => makeLogEntry "DELETE" k VNil None
  end.

(** A line the scanning loop acts on: it decodes and its [op] is one of the
    two the [switch] knows. *)
Definition effective (l : line) : bool :=
  match json_Unmarshal l with
  | Some e => String.eqb (Op e) "SET" || String.eqb (Op e) "DELETE"
  | None => false
  end.

Definition is_overlong (l : line) : bool :=
  match l with
  | LOverlong => true
  | _ => false
  end.

(** What [ReplayLog] returns for a path, read off the disk. *)
Definition replay_error (fs : gmap string fnode) (filename : string)
  : option error :=
  match fs !! filename with
  | None => Some ENOENT
  | Some Dir => Some EISDIR
  | Some (File ls) =>
      if existsb is_overlong ls then Some ErrTooLong else None
  end.

(** * Verification *)

(** ** The recency list, split at an element *)


Lemma is_at_refl e : is_at (addr e) e = true.
Proof. apply Nat.eqb_refl. Qed.

Lemma find_split l1 e l2 :
  addr e ∉ addr <$> l1 ->
  List.find (is_at (addr e)) (l1 ++ e :: l2) = Some e.
Proof.
  induction l1 as [|x l1 IH]; simpl; intros Hn.
  - unfold is_at. by rewrite Nat.eqb_refl.
  - rewrite not_elem_of_cons in Hn. destruct Hn as [Hx Hn].
    unfold is_at at 1. destruct (Nat.eqb_spec (addr x) (addr e)); [congruence|].
    by apply IH.
Qed.

Lemma Remove_absent l p : p ∉ addr <$> l -> Remove l p = l.
Proof.
  induction l as [|x l IH]; simpl; intros Hn; [done|].
  rewrite not_elem_of_cons in Hn. destruct Hn as [Hx Hn].
  unfold is_at at 1. destruct (Nat.eqb_spec (addr x) p); [congruence|].
  simpl. f_equal. by apply IH.
Qed.

Lemma Remove_app l1 l2 p : Remove (l1 ++ l2) p = Remove l1 p ++ Remove l2 p.
Proof. unfold Remove. apply List.filter_app. Qed.

Lemma Remove_split l1 e l2 :
  NoDup (addr <$> (l1 ++ e :: l2)) ->
  Remove (l1 ++ e :: l2) (addr e) = l1 ++ l2.
Proof.
  rewrite fmap_app, fmap_cons. intros Hnd.
  apply NoDup_app in Hnd as (_ & Hd & Hnd2).
  apply NoDup_cons in Hnd2 as [He2 _].
  rewrite Remove_app. simpl. rewrite is_at_refl. simpl.
  rewrite !Remove_absent; [done|done|].
  intros Hin. apply (Hd _ Hin). left.
Qed.

Lemma store_absent l p ent : p ∉ addr <$> l -> store l p ent = l.
Proof.
  induction l as [|x l IH]; simpl; intros Hn; [done|].
  rewrite not_elem_of_cons in Hn. destruct Hn as [Hx Hn].
  unfold is_at at 1. destruct (Nat.eqb_spec (addr x) p); [congruence|].
  f_equal. by apply IH.
Qed.

Lemma store_split l1 e l2 ent :
  NoDup (addr <$> (l1 ++ e :: l2)) ->
  store (l1 ++ e :: l2) (addr e) ent = l1 ++ mkElement (addr e) ent :: l2.
Proof.
  rewrite fmap_app, fmap_cons. intros Hnd.
  apply NoDup_app in Hnd as (_ & Hd & Hnd2).
  apply NoDup_cons in Hnd2 as [He2 _].
  unfold store. rewrite List.map_app. simpl. rewrite is_at_refl.
  fold (store l1 (addr e) ent). fold (store l2 (addr e) ent).
  rewrite !store_absent; [done|done|].
  intros Hin. apply (Hd _ Hin). left.
Qed.

Lemma split_front_perm (l1 l2 : list Element) e :
  l1 ++ e :: l2 ≡ₚ e :: l1 ++ l2.
Proof. by rewrite Permutation_middle. Qed.

(** ** The representation invariant *)


Lemma index_of_app l1 l2 : index_of (l1 ++ l2) = index_of l1 ++ index_of l2.
Proof. apply fmap_app. Qed.

Lemma index_of_perm l1 l2 : l1 ≡ₚ l2 -> index_of l1 ≡ₚ index_of l2.
Proof. intros H. unfold index_of. by rewrite H. Qed.

(** The index of a list split at [e]: [e]'s key maps to [e]'s address and
    the rest of the list does not mention that key. *)
Lemma index_split l1 e l2 :
  NoDup ((index_of (l1 ++ e :: l2)).*1) ->
  (list_to_map (index_of (l1 ++ e :: l2)) : gmap gokey nat)
    = <[key (Value e) := addr e]> (list_to_map (index_of (l1 ++ l2)))
  /\ (list_to_map (index_of (l1 ++ l2)) : gmap gokey nat) !! key (Value e)
     = None
  /\ NoDup ((index_of (l1 ++ l2)).*1).
Proof.
  intros Hnd.
  assert (Hp : index_of (l1 ++ e :: l2)
               ≡ₚ (key (Value e), addr e) :: index_of (l1 ++ l2)).
  { apply (index_of_perm _ (e :: l1 ++ l2)), split_front_perm. }
  split; [|split].
  - by rewrite (list_to_map_proper _ _ Hnd Hp).
  - apply not_elem_of_list_to_map_1. rewrite Hp in Hnd. simpl in Hnd.
    by apply NoDup_cons in Hnd as [? _].
  - rewrite Hp in Hnd. simpl in Hnd. by apply NoDup_cons in Hnd as [_ ?].
Qed.

(** A key of the index names an element of the list. *)
Lemma wf_lookup kv k p :
  wf kv -> Cache kv !! k = Some p ->
  exists l1 e l2, LRU_deque kv = l1 ++ e :: l2 /\ addr e = p
                  /\ key (Value e) = k.
Proof.
  intros Hwf Hk. rewrite (wf_index _ Hwf) in Hk.
  apply elem_of_list_to_map in Hk; [|apply Hwf].
  apply list_elem_of_fmap in Hk as (e & Heq & He).
  apply list_elem_of_split in He as (l1 & l2 & ->).
  exists l1, e, l2. by inversion Heq.
Qed.

Lemma wf_lookup_None kv k :
  wf kv -> Cache kv !! k = None ->
  k ∉ (index_of (LRU_deque kv)).*1.
Proof.
  intros Hwf Hk. rewrite (wf_index _ Hwf) in Hk.
  by apply not_elem_of_list_to_map_2 in Hk.
Qed.

Lemma addr_not_in_prefix l1 (e : Element) l2 :
  NoDup (addr <$> (l1 ++ e :: l2)) -> addr e ∉ addr <$> l1.
Proof.
  rewrite fmap_app, fmap_cons. intros Hnd Hin.
  apply NoDup_app in Hnd as (_ & Hd & _). apply (Hd _ Hin). left.
Qed.

Lemma deref_split l1 e l2 :
  NoDup (addr <$> (l1 ++ e :: l2)) ->
  deref (l1 ++ e :: l2) (addr e) = Some (Value e).
Proof.
  intros Hnd. unfold deref.
  by rewrite find_split by (by eapply addr_not_in_prefix).
Qed.

Lemma MoveToFront_split l1 e l2 :
  NoDup (addr <$> (l1 ++ e :: l2)) ->
  MoveToFront (l1 ++ e :: l2) (addr e) = e :: l1 ++ l2.
Proof.
  intros Hnd. unfold MoveToFront.
  rewrite find_split by (by eapply addr_not_in_prefix).
  by rewrite Remove_split.
Qed.

(** The invariant after an element was replaced in place and the list
    reordered. *)
Lemma wf_reorder kv l1 e l2 ent l' :
  wf kv -> LRU_deque kv = l1 ++ e :: l2 ->
  key ent = key (Value e) ->
  l' ≡ₚ l1 ++ mkElement (addr e) ent :: l2 ->
  wf (with_deque kv l').
Proof.
  intros [Hi Hk Ha Hh Hv Hc Hl] Hsplit Hkey Hperm. rewrite Hsplit in *.
  assert (Hidx : index_of l' ≡ₚ index_of (l1 ++ e :: l2)).
  { rewrite (index_of_perm _ _ Hperm), !index_of_app. simpl.
    by rewrite Hkey. }
  assert (Had : addr <$> l' ≡ₚ addr <$> (l1 ++ e :: l2)).
  { rewrite Hperm, !fmap_app. done. }
  constructor; simpl.
  - rewrite Hi. symmetry. apply list_to_map_proper; [by rewrite Hidx|done].
  - by rewrite Hidx.
  - by rewrite Had.
  - rewrite Hperm. rewrite Forall_app, Forall_cons in Hh |- *. naive_solver.
  - rewrite Hperm. rewrite Forall_app, Forall_cons in Hv |- *.
    simpl. rewrite Hkey. naive_solver.
  - done.
  - rewrite Hperm. by rewrite length_app in Hl |- *.
Qed.

(** The invariant after an element and its key were removed. *)
Lemma wf_remove kv l1 e l2 :
  wf kv -> LRU_deque kv = l1 ++ e :: l2 ->
  wf (with_deque (with_index kv (delete (key (Value e)) (Cache kv)))
        (l1 ++ l2)).
Proof.
  intros [Hi Hk Ha Hh Hv Hc Hl] Hsplit. rewrite Hsplit in *.
  destruct (index_split _ _ _ Hk) as (Hins & Hnone & Hnd).
  constructor; simpl.
  - rewrite Hi, Hins, delete_insert_eq. by apply delete_id.
  - done.
  - rewrite fmap_app, fmap_cons in Ha. rewrite fmap_app.
    apply NoDup_app in Ha as (? & Hd & Hc2).
    apply NoDup_cons in Hc2 as [? ?]. apply NoDup_app. split_and!; [done| |done].
    intros x Hx Hx2. apply (Hd _ Hx). by right.
  - rewrite Forall_app, Forall_cons in Hh. rewrite Forall_app. tauto.
  - rewrite Forall_app, Forall_cons in Hv. rewrite Forall_app. tauto.
  - done.
  - rewrite length_app in Hl |- *. simpl in Hl. lia.
Qed.

(** ** What the log writer leaves alone *)


Lemma same_mem_refl kv : same_mem kv kv.
Proof. by repeat split. Qed.

Lemma wf_same_mem kv kv' : same_mem kv kv' -> wf kv -> wf kv'.
Proof.
  intros (Hc & Hl & Hcap & Hh & _) [? ? ? ? ? ? ?].
  constructor; rewrite ?Hc, ?Hl, ?Hcap, ?Hh; done.
Qed.

Lemma AppendToLog_mem kv fs e : same_mem kv (AppendToLog kv fs e).1.
Proof.
  unfold AppendToLog.
  destruct (Nat.eqb _ 0); destruct (OpenFile_append _ _);
    by repeat split.
Qed.

Lemma persist_mem op k v ttl kv fs :
  same_mem kv (persist op k v ttl kv fs).1.2.
Proof.
  unfold persist. destruct (Persistent kv); [|apply same_mem_refl].
  destruct (makeLogEntry op k v ttl) as [e|m]; [|apply same_mem_refl].
  pose proof (AppendToLog_mem kv fs e) as H.
  by destruct (AppendToLog kv fs e).
Qed.

(** Name what the log writer in the goal leaves alone. *)
Tactic Notation "frame_persist" "as" simple_intropattern(pat) :=
  match goal with
  | |- context [persist ?op ?k ?v ?ttl ?kv ?fs] =>
      destruct (persist_mem op k v ttl kv fs) as pat
  end.

Lemma wf_persist op k v ttl kv fs :
  wf kv -> wf (persist op k v ttl kv fs).1.2.
Proof. apply wf_same_mem, persist_mem. Qed.

(** ** The operations on a well-formed cache *)

Lemma wf_new capacity persistent logPath :
  wf (NewOpenCache capacity persistent logPath).
Proof.
  unfold NewOpenCache.
  constructor; simpl; try done; try constructor;
    destruct (Z.ltb_spec capacity 1); lia.
Qed.

Lemma wf_key_valid kv l1 e l2 :
  wf kv -> LRU_deque kv = l1 ++ e :: l2 ->
  ValidateKey (key (Value e)) = None.
Proof.
  intros Hwf Hs. pose proof (wf_valid _ Hwf) as Hv. rewrite Hs in Hv.
  rewrite Forall_app, Forall_cons in Hv. tauto.
Qed.

Lemma Get_present kv now l1 e l2 :
  wf kv -> LRU_deque kv = l1 ++ e :: l2 ->
  Get kv now (key (Value e)) =
    if expired now (Value e)
    then (Return (VNil, false),
          with_deque (with_index kv (delete (key (Value e)) (Cache kv)))
            (l1 ++ l2))
    else (Return (value (Value e), true), with_deque kv (e :: l1 ++ l2)).
Proof.
  intros Hwf Hs. pose proof (wf_addrs _ Hwf) as Ha. rewrite Hs in Ha.
  unfold Get. rewrite (wf_key_valid _ _ _ _ Hwf Hs).
  assert (Hk : Cache kv !! key (Value e) = Some (addr e)).
  { rewrite (wf_index _ Hwf), Hs.
    destruct (index_split l1 e l2) as (-> & _).
    - rewrite <- Hs. apply Hwf.
    - apply lookup_insert_eq. }
  rewrite Hk, Hs, deref_split by done.
  destruct (expired now (Value e)); simpl.
  - by rewrite Hs, Remove_split.
  - by rewrite MoveToFront_split.
Qed.

Lemma Get_absent kv now k :
  Cache kv !! k = None -> Get kv now k = (Return (VNil, false), kv).
Proof. intros Hk. unfold Get. rewrite Hk. by destruct (ValidateKey k). Qed.

Lemma wf_Get kv now k : wf kv -> wf (Get kv now k).2.
Proof.
  intros Hwf. destruct (Cache kv !! k) as [p|] eqn:Hk.
  - destruct (wf_lookup _ _ _ Hwf Hk) as (l1 & e & l2 & Hs & _ & <-).
    rewrite (Get_present _ _ _ _ _ Hwf Hs).
    destruct (expired now (Value e)); simpl.
    + by apply wf_remove.
    + apply (wf_reorder kv l1 e l2 (Value e)); try done.
      destruct e; simpl. symmetry. apply split_front_perm.
  - by rewrite Get_absent.
Qed.

Lemma Set_present kv fs now v ttl l1 e l2 :
  wf kv -> LRU_deque kv = l1 ++ e :: l2 ->
  Set_ kv fs now (key (Value e)) v ttl =
    persist "SET" (key (Value e)) v ttl
      (with_deque kv
         (mkElement (addr e)
            (mkEntry (key (Value e)) v (Time_Add now <$> ttl)) :: l1 ++ l2))
      fs.
Proof.
  intros Hwf Hs. pose proof (wf_addrs _ Hwf) as Ha. rewrite Hs in Ha.
  unfold Set_. rewrite (wf_key_valid _ _ _ _ Hwf Hs).
  assert (Hk : Cache kv !! key (Value e) = Some (addr e)).
  { rewrite (wf_index _ Hwf), Hs.
    destruct (index_split l1 e l2) as (-> & _).
    - rewrite <- Hs. apply Hwf.
    - apply lookup_insert_eq. }
  rewrite Hk, Hs, deref_split by done. rewrite store_split by done.
  set (e' := mkElement (addr e) _).
  change (addr e) with (addr e') at 1.
  rewrite MoveToFront_split; [done|].
  by rewrite fmap_app, fmap_cons in Ha |- *.
Qed.

Lemma evict_full kv l back :
  wf kv -> LRU_deque kv = l ++ [back] ->
  Capacity kv <= Z.of_nat (length (LRU_deque kv)) ->
  evict kv =
    with_deque (with_index kv (delete (key (Value back)) (Cache kv))) l.
Proof.
  intros Hwf Hs Hfull. pose proof (wf_addrs _ Hwf) as Ha. rewrite Hs in Ha.
  unfold evict. destruct (Z.leb_spec (Capacity kv)
    (Z.of_nat (length (LRU_deque kv)))); [|lia].
  unfold Back. rewrite Hs, last_snoc. simpl. rewrite Hs.
  rewrite Remove_split by done. by rewrite app_nil_r.
Qed.

Lemma evict_room kv :
  Z.of_nat (length (LRU_deque kv)) < Capacity kv -> evict kv = kv.
Proof.
  intros H. unfold evict.
  by destruct (Z.leb_spec (Capacity kv) (Z.of_nat (length (LRU_deque kv))));
    [lia|].
Qed.

Lemma wf_nonempty_full kv :
  wf kv -> Capacity kv <= Z.of_nat (length (LRU_deque kv)) ->
  exists l back, LRU_deque kv = l ++ [back].
Proof.
  intros Hwf Hfull. pose proof (wf_cap _ Hwf).
  destruct (last (LRU_deque kv)) as [b|] eqn:Hl.
  - apply last_Some in Hl as [l ->]. eauto.
  - apply last_None in Hl. rewrite Hl in Hfull. simpl in Hfull. lia.
Qed.

Lemma wf_evict kv :
  wf kv ->
  wf (evict kv)
  /\ Z.of_nat (length (LRU_deque (evict kv))) < Capacity kv
  /\ Capacity (evict kv) = Capacity kv
  /\ forall k, Cache kv !! k = None -> Cache (evict kv) !! k = None.
Proof.
  intros Hwf.
  destruct (Z.leb_spec (Capacity kv) (Z.of_nat (length (LRU_deque kv))))
    as [Hfull|Hroom].
  - destruct (wf_nonempty_full _ Hwf Hfull) as (l & back & Hs).
    rewrite (evict_full _ _ _ Hwf Hs Hfull).
    pose proof (wf_remove kv l back [] Hwf Hs) as Hr.
    rewrite app_nil_r in Hr. simpl.
    pose proof (wf_len _ Hwf) as Hlen. rewrite Hs, length_app in Hlen.
    simpl in Hlen. split_and!; [done|lia|done|].
    intros k Hk. rewrite lookup_delete. by case_decide.
  - rewrite (evict_room _ Hroom). by split_and!.
Qed.

Lemma wf_push kv k v exp :
  wf kv -> Z.of_nat (length (LRU_deque kv)) < Capacity kv ->
  Cache kv !! k = None -> ValidateKey k = None ->
  wf (mkOpenCache (<[k := heap_next kv]> (Cache kv))
        (PushFront (LRU_deque kv) (heap_next kv) (mkEntry k v exp))
        (Capacity kv) (Persistent kv) (LogPath kv) (S (heap_next kv))).
Proof.
  intros Hwf Hroom Hk Hv. pose proof (wf_lookup_None _ _ Hwf Hk) as Hnk.
  destruct Hwf as [Hi Hks Ha Hh Hval Hc Hl].
  constructor; simpl.
  - by rewrite Hi.
  - by apply NoDup_cons.
  - apply NoDup_cons. split; [|done].
    intros Hin. apply list_elem_of_fmap in Hin as (e & Heq & He).
    rewrite Forall_forall in Hh. specialize (Hh e He). lia.
  - constructor; [simpl; lia|].
    eapply Forall_impl; [exact Hh|]. simpl. intros. lia.
  - by constructor.
  - done.
  - lia.
Qed.

Lemma Set_absent kv fs now k v ttl :
  ValidateKey k = None -> Cache kv !! k = None ->
  Set_ kv fs now k v ttl =
    persist "SET" k v ttl
      (mkOpenCache (<[k := heap_next (evict kv)]> (Cache (evict kv)))
         (PushFront (LRU_deque (evict kv)) (heap_next (evict kv))
            (mkEntry k v (Time_Add now <$> ttl)))
         (Capacity (evict kv)) (Persistent (evict kv)) (LogPath (evict kv))
         (S (heap_next (evict kv))))
      fs.
Proof. intros Hv Hk. unfold Set_. by rewrite Hv, Hk. Qed.

Lemma Set_invalid kv fs now k v ttl :
  ValidateKey k <> None -> Set_ kv fs now k v ttl = (Return false, kv, fs).
Proof. intros Hv. unfold Set_. by destruct (ValidateKey k). Qed.

Lemma wf_Set kv fs now k v ttl : wf kv -> wf (Set_ kv fs now k v ttl).1.2.
Proof.
  intros Hwf. destruct (ValidateKey k) as [m|] eqn:Hv.
  { rewrite Set_invalid; [done|congruence]. }
  destruct (Cache kv !! k) as [p|] eqn:Hk.
  - destruct (wf_lookup _ _ _ Hwf Hk) as (l1 & e & l2 & Hs & _ & <-).
    rewrite (Set_present _ _ _ _ _ _ _ _ Hwf Hs).
    apply wf_persist.
    eapply (wf_reorder kv l1 e l2 (mkEntry (key (Value e)) v _));
      [done..|].
    symmetry. apply split_front_perm.
  - rewrite Set_absent by done. apply wf_persist.
    destruct (wf_evict _ Hwf) as (Hwe & Hroom & Hcap & Hnone).
    apply wf_push; [done|by rewrite Hcap|by apply Hnone|done].
Qed.

Lemma Delete_present kv fs l1 e l2 :
  wf kv -> LRU_deque kv = l1 ++ e :: l2 ->
  Delete kv fs (key (Value e)) =
    persist "DELETE" (key (Value e)) VNil None
      (with_index (with_deque kv (l1 ++ l2))
         (delete (key (Value e)) (Cache kv)))
      fs.
Proof.
  intros Hwf Hs. pose proof (wf_addrs _ Hwf) as Ha. rewrite Hs in Ha.
  unfold Delete. rewrite (wf_key_valid _ _ _ _ Hwf Hs).
  assert (Hk : Cache kv !! key (Value e) = Some (addr e)).
  { rewrite (wf_index _ Hwf), Hs.
    destruct (index_split l1 e l2) as (-> & _).
    - rewrite <- Hs. apply Hwf.
    - apply lookup_insert_eq. }
  rewrite Hk, Hs. by rewrite Remove_split.
Qed.

Lemma Delete_absent kv fs k :
  Cache kv !! k = None -> Delete kv fs k = (Return false, kv, fs).
Proof. intros Hk. unfold Delete. rewrite Hk. by destruct (ValidateKey k). Qed.

Lemma wf_Delete kv fs k : wf kv -> wf (Delete kv fs k).1.2.
Proof.
  intros Hwf. destruct (Cache kv !! k) as [p|] eqn:Hk.
  - destruct (wf_lookup _ _ _ Hwf Hk) as (l1 & e & l2 & Hs & _ & <-).
    rewrite (Delete_present _ _ _ _ _ Hwf Hs). apply wf_persist.
    by apply (wf_remove kv l1 e l2).
  - by rewrite Delete_absent.
Qed.

(** ** The persistence flag and the disk *)

Lemma evict_Persistent kv : Persistent (evict kv) = Persistent kv.
Proof.
  unfold evict. destruct (Capacity kv <=? _); [|done].
  by destruct (Back (LRU_deque kv)).
Qed.

Lemma persist_Persistent op k v ttl kv fs :
  Persistent (persist op k v ttl kv fs).1.2 = Persistent kv.
Proof. apply persist_mem. Qed.

Lemma persist_off op k v ttl kv fs :
  Persistent kv = false -> persist op k v ttl kv fs = (Return true, kv, fs).
Proof. intros H. unfold persist. by rewrite H. Qed.

Lemma Get_Persistent kv now k : Persistent (Get kv now k).2 = Persistent kv.
Proof.
  unfold Get. destruct (ValidateKey k); [done|].
  destruct (Cache kv !! k); [|done].
  destruct (deref (LRU_deque kv) n); [|done].
  by destruct (expired now e).
Qed.

Lemma Set_Persistent kv fs now k v ttl :
  Persistent (Set_ kv fs now k v ttl).1.2 = Persistent kv.
Proof.
  unfold Set_. destruct (ValidateKey k); [done|].
  destruct (Cache kv !! k).
  - destruct (deref (LRU_deque kv) n); [|done].
    by rewrite persist_Persistent.
  - rewrite persist_Persistent. simpl. apply evict_Persistent.
Qed.

Lemma Delete_Persistent kv fs k :
  Persistent (Delete kv fs k).1.2 = Persistent kv.
Proof.
  unfold Delete. destruct (ValidateKey k); [done|].
  destruct (Cache kv !! k); [|done]. by rewrite persist_Persistent.
Qed.

Lemma Set_off_disk kv fs now k v ttl :
  Persistent kv = false -> (Set_ kv fs now k v ttl).2 = fs.
Proof.
  intros Hp. unfold Set_. destruct (ValidateKey k); [done|].
  destruct (Cache kv !! k).
  - destruct (deref (LRU_deque kv) n); [|done]. by rewrite persist_off.
  - rewrite persist_off; [done|]. simpl. by rewrite evict_Persistent.
Qed.

Lemma Delete_off_disk kv fs k :
  Persistent kv = false -> (Delete kv fs k).2 = fs.
Proof.
  intros Hp. unfold Delete. destruct (ValidateKey k); [done|].
  destruct (Cache kv !! k); [|done]. by rewrite persist_off.
Qed.

(** A property of the cache and the disk that [Set_] and [Delete] keep is
    kept by the scanning loop. *)
Section replay_invariant.
Variable I : OpenCache -> gmap string fnode -> Prop.
Hypothesis I_Set : forall kv fs now k v ttl,
  I kv fs -> I (Set_ kv fs now k v ttl).1.2 (Set_ kv fs now k v ttl).2.
Hypothesis I_Delete : forall kv fs k,
  I kv fs -> I (Delete kv fs k).1.2 (Delete kv fs k).2.

Lemma replay_lines_invariant clock ls : forall i kv fs,
  I kv fs ->
  I (replay_lines clock i ls kv fs).1.2 (replay_lines clock i ls kv fs).2.
Proof.
  induction ls as [|l ls IH]; intros i kv fs HI; [done|].
  destruct l as [fields|text|]; simpl; [|by apply IH|done].
  destruct (decode_fields fields _) as [e|]; [|by apply IH].
  destruct (String.eqb (Op e) "SET").
  - set (ttl := if 0 <? TTLms e then _ else _).
    pose proof (I_Set kv fs (clock i) (KString (Key e)) (Val e) ttl HI)
      as HS.
    destruct (Set_ kv fs (clock i) (KString (Key e)) (Val e) ttl)
      as [[[b|m] kv'] fs']; simpl in *; [by apply IH|done].
  - destruct (String.eqb (Op e) "DELETE"); [|by apply IH].
    pose proof (I_Delete kv fs (KString (Key e)) HI) as HD.
    destruct (Delete kv fs (KString (Key e))) as [[[b|m] kv'] fs'];
      simpl in *; [by apply IH|done].
Qed.
End replay_invariant.

(** While the flag is off the scanning loop leaves the flag off and the
    disk as it is, whatever the lines hold. *)
Lemma replay_lines_off clock ls i kv fs :
  Persistent kv = false ->
  Persistent (replay_lines clock i ls kv fs).1.2 = false
  /\ (replay_lines clock i ls kv fs).2 = fs.
Proof.
  intros Hp.
  apply (replay_lines_invariant
           (fun kv' fs' => Persistent kv' = false /\ fs' = fs)); [| |done].
  - intros kv' fs' now k v ttl [Hp' ->].
    by rewrite Set_Persistent, Set_off_disk.
  - intros kv' fs' k [Hp' ->].
    by rewrite Delete_Persistent, Delete_off_disk.
Qed.

Lemma wf_replay_lines clock ls i kv fs :
  wf kv -> wf (replay_lines clock i ls kv fs).1.2.
Proof.
  apply (replay_lines_invariant (fun kv' _ => wf kv')).
  - intros kv' fs' now k v ttl. apply wf_Set.
  - intros kv' fs' k. apply wf_Delete.
Qed.

Lemma wf_with_Persistent kv b : wf kv -> wf (with_Persistent kv b).
Proof. intros [? ? ? ? ? ? ?]. by constructor. Qed.

Lemma wf_ReplayLog kv fs clock filename :
  wf kv -> wf (ReplayLog kv fs clock filename).1.2.
Proof.
  intros Hwf. unfold ReplayLog. destruct (Open fs filename) as [err|file];
    [done|].
  destruct file as [|ls].
  - simpl. destruct kv. by destruct Hwf.
  - pose proof (wf_replay_lines clock ls 0%nat (with_Persistent kv false) fs
      (wf_with_Persistent _ _ Hwf)) as Hw.
    destruct (replay_lines clock 0 ls (with_Persistent kv false) fs)
      as [[r kv2] fs2]. simpl in *. by apply wf_with_Persistent.
Qed.

(** ** Reachable states *)


Create HintDb cache_wf.
#[local] Hint Resolve wf_new wf_Get wf_Set wf_Delete wf_ReplayLog : cache_wf.

Lemma reachable_wf kv : reachable kv -> wf kv.
Proof. induction 1; auto with cache_wf. Qed.

Lemma wf_size kv : wf kv -> size (Cache kv) = length (LRU_deque kv).
Proof.
  intros Hwf. rewrite (wf_index _ Hwf), map_size_list_to_map by apply Hwf.
  unfold index_of. by rewrite length_fmap.
Qed.

(** ** Size invariant *)



(** ** Lazy expiry in [Get] *)

Lemma wf_split_at kv k p ent :
  wf kv -> Cache kv !! k = Some p -> deref (LRU_deque kv) p = Some ent ->
  exists l1 l2, LRU_deque kv = l1 ++ mkElement p ent :: l2 /\ key ent = k.
Proof.
  intros Hwf Hk Hd.
  destruct (wf_lookup _ _ _ Hwf Hk) as (l1 & e & l2 & Hs & <- & <-).
  pose proof (wf_addrs _ Hwf) as Ha. rewrite Hs in Ha, Hd.
  rewrite deref_split in Hd by done. injection Hd as <-.
  exists l1, l2. by destruct e.
Qed.

Lemma list_without_key kv l1 e l2 :
  wf kv -> LRU_deque kv = l1 ++ e :: l2 ->
  key (Value e) ∉ (index_of (l1 ++ l2)).*1.
Proof.
  intros Hwf Hs. pose proof (wf_keys _ Hwf) as Hk. rewrite Hs in Hk.
  destruct (index_split _ _ _ Hk) as (_ & Hnone & _).
  by apply not_elem_of_list_to_map_2 in Hnone.
Qed.

(** C3. [Get] on a present key whose entry's expiry lies in the past
    removes the entry from the index map and from the recency list and
    reports not-found; on a present key whose entry has no expiry, or one
    not yet passed, it returns the stored value with [true] and moves the
    element to the front of the recency list. *)
Theorem Get_lazy_expiration kv now k p ent :
  reachable kv ->
  Cache kv !! k = Some p -> deref (LRU_deque kv) p = Some ent ->
  ((exists t, expiresAt ent = Some t /\ t < now) ->
     Get kv now k
       = (Return (VNil, false),
          with_deque (with_index kv (delete k (Cache kv)))
            (Remove (LRU_deque kv) p))
     /\ (delete k (Cache kv)) !! k = None
     /\ (k ∉ (index_of (Remove (LRU_deque kv) p)).*1)
     /\ S (length (Remove (LRU_deque kv) p)) = length (LRU_deque kv))
  /\ ((expiresAt ent = None \/ (exists t, expiresAt ent = Some t /\ now <= t))
      ->
     Get kv now k
       = (Return (value ent, true),
          with_deque kv (mkElement p ent :: Remove (LRU_deque kv) p))).
Proof.
  intros Hr Hk Hd. pose proof (reachable_wf _ Hr) as Hwf.
  destruct (wf_split_at _ _ _ _ Hwf Hk Hd) as (l1 & l2 & Hs & <-).
  pose proof (wf_addrs _ Hwf) as Ha. rewrite Hs in Ha.
  pose proof (Get_present kv now l1 _ l2 Hwf Hs) as HG. simpl in HG.
  pose proof (Remove_split l1 _ l2 Ha) as HR. simpl in HR.
  rewrite Hs, HR. split.
  - intros (t & Ht & Hlt).
    assert (He : expired now ent = true).
    { unfold expired, Time_After. rewrite Ht. by apply Z.ltb_lt. }
    rewrite He in HG. split_and!; [done| | |].
    + apply lookup_delete_eq.
    + apply (list_without_key kv l1 (mkElement p ent) l2 Hwf Hs).
    + rewrite !length_app. simpl. lia.
  - intros Hlive.
    assert (He : expired now ent = false).
    { unfold expired, Time_After. destruct Hlive as [->|(t & -> & Hle)];
        [done|]. by apply Z.ltb_ge. }
    by rewrite He in HG.
Qed.

Lemma Get_lazy_expiration_witness :
  Get expiring 151 (KString "x")
    = (Return (VNil, false),
       with_heap_next (NewOpenCache 2 false EmptyString) 1)
  /\ Get expiring 150 (KString "x") = (Return (VString "v", true), expiring).
Proof.
  set (kv := expiring).
  assert (Hr : reachable kv) by (apply reach_Set, reach_New).
  assert (Hk : Cache kv !! KString "x" = Some 0%nat) by reflexivity.
  assert (Hd : deref (LRU_deque kv) 0
               = Some (mkEntry (KString "x") (VString "v") (Some 150)))
    by reflexivity.
  split.
  - destruct (Get_lazy_expiration kv 151 _ _ _ Hr Hk Hd) as [Hexp _].
    destruct Hexp as (HG & _).
    { exists 150. split; [reflexivity|lia]. }
    rewrite HG. reflexivity.
  - destruct (Get_lazy_expiration kv 150 _ _ _ Hr Hk Hd) as [_ Hlive].
    rewrite Hlive; [reflexivity|].
    right. exists 150. split; [reflexivity|lia].
Defined.

(** ** Update in place *)

(** C7. [Set_] on a key already present replaces the stored value, sets
    the expiry to [now + ttl] when a TTL is given and clears it when none
    is, and moves the element to the front; every other element stays, in
    order, the index map is untouched, and [Len] does not change, also when
    the cache is at capacity. The state is the one the call leaves behind,
    whether or not the log writer then panics. *)
Theorem Set_update_in_place kv fs now k v ttl p :
  reachable kv -> Cache kv !! k = Some p ->
  let kv' := (Set_ kv fs now k v ttl).1.2 in
  LRU_deque kv'
    = mkElement p
        (mkEntry k v
           match ttl with Some d => Some (now + d) | None => None end)
      :: Remove (LRU_deque kv) p
  /\ Cache kv' = Cache kv
  /\ Len kv' = Len kv
  /\ length (LRU_deque kv') = length (LRU_deque kv)
  /\ Capacity kv' = Capacity kv.
Proof.
  intros Hr Hk kv'. pose proof (reachable_wf _ Hr) as Hwf.
  destruct (wf_lookup _ _ _ Hwf Hk) as (l1 & e & l2 & Hs & <- & <-).
  pose proof (wf_addrs _ Hwf) as Ha. rewrite Hs in Ha.
  subst kv'. rewrite (Set_present _ _ _ _ _ _ _ _ Hwf Hs).
  destruct (persist_mem "SET" (key (Value e)) v ttl
    (with_deque kv
       (mkElement (addr e) (mkEntry (key (Value e)) v (Time_Add now <$> ttl))
          :: l1 ++ l2)) fs) as (Hc & Hl & Hcap & _).
  rewrite Hl, Hs, Remove_split by done. simpl.
  split_and!; [by destruct ttl|done|by unfold Len; rewrite Hc| |done].
  rewrite !length_app. simpl. lia.
Qed.

Lemma Set_update_in_place_witness :
  LRU_deque (Set_ one_key ∅ 5 (KString "k") (VInt 20) (Some 7)).1.2
    = [mkElement 0 (mkEntry (KString "k") (VInt 20) (Some 12))]
  /\ Len (Set_ one_key ∅ 5 (KString "k") (VInt 20) (Some 7)).1.2 = 1.
Proof.
  assert (Hr : reachable one_key) by (apply reach_Set, reach_New).
  destruct (Set_update_in_place one_key ∅ 5 (KString "k") (VInt 20) (Some 7)
              0%nat Hr eq_refl) as (Hl & _ & Hn & _).
  split; [exact Hl|exact Hn].
Defined.

(** ** Invalid keys *)

(** C9. With an invalid key ([nil], or a value of a type that is not
    comparable) [Get] reports not-found, [Set_] and [Delete] return
    [false], and the cache and the disk are what they were; the validator's
    error is not part of any result. *)
Theorem invalid_key_noop kv fs now k v ttl :
  k = KNil \/ Comparable k = false ->
  ValidateKey k <> None
  /\ Get kv now k = (Return (VNil, false), kv)
  /\ Set_ kv fs now k v ttl = (Return false, kv, fs)
  /\ Delete kv fs k = (Return false, kv, fs).
Proof.
  intros Hk.
  assert (Hv : exists m, ValidateKey k = Some m).
  { destruct Hk as [->|Hc]; [by eexists|].
    destruct k; try discriminate. by eexists. }
  destruct Hv as [m Hv]. unfold Get, Set_, Delete. rewrite Hv.
  by split_and!.
Qed.

Lemma invalid_key_noop_witness :
  Get one_key 0 KNil = (Return (VNil, false), one_key)
  /\ Set_ one_key ∅ 0 (KSlice [1; 2]) (VInt 1) None
     = (Return false, one_key, ∅)
  /\ Delete one_key ∅ KNil = (Return false, one_key, ∅).
Proof.
  set (kv := one_key). split_and!.
  - apply (invalid_key_noop kv ∅ 0 KNil VNil None). by left.
  - apply (invalid_key_noop kv ∅ 0 (KSlice [1; 2]) (VInt 1) None). by right.
  - apply (invalid_key_noop kv ∅ 0 KNil VNil None). by left.
Defined.

(** ** Replay and the persistence flag *)

Lemma ReplayLog_disk kv fs clock filename :
  (ReplayLog kv fs clock filename).2 = fs.
Proof.
  unfold ReplayLog. destruct (Open fs filename) as [err|[|ls]]; [done..|].
  destruct (replay_lines_off clock ls 0%nat (with_Persistent kv false) fs
              eq_refl) as [_ Hfs].
  by destruct (replay_lines clock 0 ls (with_Persistent kv false) fs)
    as [[r kv2] fs2].
Qed.

(** C8. Whatever the cache, the disk and the path, and however [ReplayLog]
    ends (no error, the open error, a scan error), the persistence flag
    afterwards is the one before the call and the disk is unchanged: no
    record read during the replay is written back. *)
Theorem ReplayLog_preserves_flag kv fs clock filename :
  Persistent (ReplayLog kv fs clock filename).1.2 = Persistent kv
  /\ (ReplayLog kv fs clock filename).2 = fs.
Proof.
  split; [|apply ReplayLog_disk].
  unfold ReplayLog. destruct (Open fs filename) as [err|[|ls]]; [done..|].
  by destruct (replay_lines clock 0 ls (with_Persistent kv false) fs)
    as [[r kv2] fs2].
Qed.

(** On a well-formed cache the scanning loop never panics. *)
Lemma replay_lines_returns clock ls : forall i kv fs,
  wf kv -> Persistent kv = false ->
  exists err, (replay_lines clock i ls kv fs).1.1 = Return err.
Proof.
  induction ls as [|l ls IH]; intros i kv fs Hwf Hp; [by eexists|].
  destruct l as [fields|text|]; simpl; [|by apply IH|by eexists].
  destruct (decode_fields fields _) as [e|]; [|by apply IH].
  destruct (String.eqb (Op e) "SET").
  - set (ttl := if 0 <? TTLms e then _ else _).
    pose proof (wf_Set kv fs (clock i) (KString (Key e)) (Val e) ttl Hwf)
      as Hw.
    pose proof (Set_Persistent kv fs (clock i) (KString (Key e)) (Val e) ttl)
      as HP.
    assert (Hret : exists b,
      (Set_ kv fs (clock i) (KString (Key e)) (Val e) ttl).1.1 = Return b).
    { destruct (Cache kv !! KString (Key e)) as [p|] eqn:Hk.
      - destruct (wf_lookup _ _ _ Hwf Hk) as (l1 & x & l2 & Hs & _ & Hkx).
        rewrite <- Hkx, (Set_present _ _ _ _ _ _ _ _ Hwf Hs).
        rewrite persist_off by done. by eexists.
      - rewrite Set_absent by done. rewrite persist_off; [by eexists|].
        simpl. by rewrite evict_Persistent. }
    destruct Hret as [b Hb].
    destruct (Set_ kv fs (clock i) (KString (Key e)) (Val e) ttl)
      as [[[b'|m] kv'] fs']; simpl in *; [|done].
    apply IH; [done|congruence].
  - destruct (String.eqb (Op e) "DELETE"); [|by apply IH].
    pose proof (wf_Delete kv fs (KString (Key e)) Hwf) as Hw.
    pose proof (Delete_Persistent kv fs (KString (Key e))) as HP.
    assert (Hret : exists b,
      (Delete kv fs (KString (Key e))).1.1 = Return b).
    { destruct (Cache kv !! KString (Key e)) as [p|] eqn:Hk.
      - destruct (wf_lookup _ _ _ Hwf Hk) as (l1 & x & l2 & Hs & _ & Hkx).
        rewrite <- Hkx, (Delete_present _ _ _ _ _ Hwf Hs).
        rewrite persist_off by done. by eexists.
      - rewrite Delete_absent by done. by eexists. }
    destruct Hret as [b Hb].
    destruct (Delete kv fs (KString (Key e))) as [[[b'|m] kv'] fs'];
      simpl in *; [|done].
    apply IH; [done|congruence].
Qed.

Lemma ReplayLog_returns kv fs clock filename :
  reachable kv ->
  exists err, (ReplayLog kv fs clock filename).1.1 = Return err.
Proof.
  intros Hr. pose proof (reachable_wf _ Hr) as Hwf. unfold ReplayLog.
  destruct (Open fs filename) as [err|[|ls]]; [by eexists..|].
  destruct (replay_lines_returns clock ls 0%nat (with_Persistent kv false) fs
              (wf_with_Persistent _ _ Hwf) eq_refl) as [err Herr].
  destruct (replay_lines clock 0 ls (with_Persistent kv false) fs)
    as [[r kv2] fs2]. by exists err.
Qed.

(** ** A failed append *)

Lemma evict_LogPath kv : LogPath (evict kv) = LogPath kv.
Proof.
  unfold evict. destruct (Capacity kv <=? _); [|done].
  by destruct (Back (LRU_deque kv)).
Qed.

Lemma evict_with_Persistent kv b :
  evict (with_Persistent kv b) = with_Persistent (evict kv) b.
Proof.
  unfold evict. simpl. destruct (Capacity kv <=? _); [|done].
  by destruct (Back (LRU_deque kv)).
Qed.

Lemma persist_append_fails op s v ttl kv fs :
  Persistent kv = true -> OpenFile_append fs (log_file kv) = None ->
  (persist op (KString s) v ttl kv fs).1.1 = Return true
  /\ (persist op (KString s) v ttl kv fs).2 = fs.
Proof.
  unfold persist, AppendToLog, log_file. intros -> Hopen. simpl.
  destruct (Nat.eqb (String.length (LogPath kv)) 0); simpl;
    by rewrite Hopen.
Qed.

Lemma deref_head e l : deref (e :: l) (addr e) = Some (Value e).
Proof. unfold deref. simpl. by rewrite is_at_refl. Qed.

(** After [Set_] with a valid key the key is indexed and its element holds
    the new entry. *)
Lemma Set_stores kv fs now k v ttl :
  wf kv -> ValidateKey k = None ->
  exists p, Cache (Set_ kv fs now k v ttl).1.2 !! k = Some p
    /\ deref (LRU_deque (Set_ kv fs now k v ttl).1.2) p
       = Some (mkEntry k v (Time_Add now <$> ttl)).
Proof.
  intros Hwf Hv. destruct (Cache kv !! k) as [p|] eqn:Hk.
  - destruct (wf_lookup _ _ _ Hwf Hk) as (l1 & e & l2 & Hs & <- & <-).
    rewrite (Set_present kv fs now v ttl l1 e l2 Hwf Hs).
    frame_persist as (-> & -> & _).
    exists (addr e). split; [exact Hk|].
    apply (deref_head (mkElement (addr e) _)).
  - rewrite (Set_absent kv fs now k v ttl Hv Hk).
    frame_persist as (-> & -> & _).
    exists (heap_next (evict kv)). split; [apply lookup_insert_eq|].
    apply (deref_head (mkElement _ _)).
Qed.

(** C6. On a persistent cache whose log file cannot be opened for
    appending, a [Set_] (with a string key, the only keys for which the
    append is attempted) and a [Delete] of a present string key still
    return [true], leave the disk as it is, and change the index map and
    the recency list exactly as the same call does on a cache that does
    not persist. *)
Theorem append_failure_swallowed kv fs :
  reachable kv -> Persistent kv = true ->
  OpenFile_append fs (log_file kv) = None ->
  (forall now s v ttl,
     let r := Set_ kv fs now (KString s) v ttl in
     let r0 := Set_ (with_Persistent kv false) fs now (KString s) v ttl in
     r.1.1 = Return true /\ r.2 = fs
     /\ Cache r.1.2 = Cache r0.1.2 /\ LRU_deque r.1.2 = LRU_deque r0.1.2
     /\ exists p, Cache r.1.2 !! KString s = Some p
          /\ deref (LRU_deque r.1.2) p
             = Some (mkEntry (KString s) v (Time_Add now <$> ttl)))
  /\ (forall s p, Cache kv !! KString s = Some p ->
     let r := Delete kv fs (KString s) in
     let r0 := Delete (with_Persistent kv false) fs (KString s) in
     r.1.1 = Return true /\ r.2 = fs
     /\ Cache r.1.2 = Cache r0.1.2 /\ LRU_deque r.1.2 = LRU_deque r0.1.2
     /\ Cache r.1.2 = delete (KString s) (Cache kv)
     /\ LRU_deque r.1.2 = Remove (LRU_deque kv) p).
Proof.
  intros Hr Hp Hopen. pose proof (reachable_wf _ Hr) as Hwf.
  pose proof (wf_with_Persistent kv false Hwf) as Hwf0.
  split.
  - intros now s v ttl r r0. subst r r0.
    pose proof (Set_stores kv fs now (KString s) v ttl Hwf eq_refl) as Hst.
    enough (H4 :
      (Set_ kv fs now (KString s) v ttl).1.1 = Return true
      /\ (Set_ kv fs now (KString s) v ttl).2 = fs
      /\ Cache (Set_ kv fs now (KString s) v ttl).1.2
         = Cache (Set_ (with_Persistent kv false) fs now (KString s) v ttl).1.2
      /\ LRU_deque (Set_ kv fs now (KString s) v ttl).1.2
         = LRU_deque
             (Set_ (with_Persistent kv false) fs now (KString s) v ttl).1.2).
    { destruct H4 as (? & ? & ? & ?). by split_and!. }
    clear Hst.
    destruct (Cache kv !! KString s) as [p|] eqn:Hk.
    + destruct (wf_lookup _ _ _ Hwf Hk) as (l1 & e & l2 & Hs & <- & Hke).
      pose proof (Set_present kv fs now v ttl l1 e l2 Hwf Hs) as E1.
      pose proof (Set_present (with_Persistent kv false) fs now v ttl
                    l1 e l2 Hwf0 Hs) as E0.
      rewrite Hke in E1, E0. rewrite E1, E0.
      set (kvm := with_deque kv _).
      destruct (persist_append_fails "SET" s v ttl kvm fs Hp Hopen)
        as [-> ->].
      destruct (persist_mem "SET" (KString s) v ttl kvm fs)
        as (-> & -> & _).
      rewrite persist_off by done. simpl. by split_and!.
    + pose proof (Set_absent kv fs now (KString s) v ttl eq_refl Hk) as E1.
      pose proof (Set_absent (with_Persistent kv false) fs now (KString s) v
                    ttl eq_refl Hk) as E0.
      rewrite evict_with_Persistent in E0. simpl in E0.
      rewrite persist_off in E0 by done.
      match type of E1 with
      | _ = persist _ _ _ _ ?x _ => set (kvm := x) in *
      end.
      assert (Hpm : Persistent kvm = true)
        by (simpl; by rewrite evict_Persistent).
      assert (Hom : OpenFile_append fs (log_file kvm) = None).
      { unfold log_file in *. simpl. by rewrite evict_LogPath. }
      rewrite E1, E0.
      destruct (persist_append_fails "SET" s v ttl kvm fs Hpm Hom)
        as [-> ->].
      destruct (persist_mem "SET" (KString s) v ttl kvm fs)
        as (-> & -> & _).
      simpl. by split_and!.
  - intros s p Hk r r0. subst r r0.
    destruct (wf_lookup _ _ _ Hwf Hk) as (l1 & e & l2 & Hs & <- & Hke).
    pose proof (wf_addrs _ Hwf) as Ha. rewrite Hs in Ha.
    pose proof (Delete_present kv fs l1 e l2 Hwf Hs) as E1.
    pose proof (Delete_present (with_Persistent kv false) fs l1 e l2 Hwf0 Hs)
      as E0.
    rewrite Hke in E1, E0. rewrite E1, E0. set (kvm := with_index _ _).
    destruct (persist_append_fails "DELETE" s VNil None kvm fs Hp Hopen)
      as [-> ->].
    destruct (persist_mem "DELETE" (KString s) VNil None kvm fs)
      as (-> & -> & _).
    rewrite persist_off by done. simpl.
    by rewrite Hs, Remove_split.
Qed.

Lemma append_failure_swallowed_witness :
  (Set_ (NewOpenCache 2 true "logs") log_is_dir 0
     (KString "a") (VString "x") None).1.1 = Return true
  /\ (Set_ (NewOpenCache 2 true "logs") log_is_dir 0
        (KString "a") (VString "x") None).2 = log_is_dir.
Proof.
  set (kv := NewOpenCache 2 true "logs"). set (fs := log_is_dir).
  destruct (append_failure_swallowed kv fs (reach_New _ _ _) eq_refl eq_refl)
    as [HS _].
  destruct (HS 0 "a"%string (VString "x") None) as (H1 & H2 & _).
  by split.
Defined.

(** ** A key that is not a string, on a persistent cache *)

(** C2. The key [5] passes [ValidateKey], and [Set_] with it returns [true]
    on a cache that does not persist; on a persistent cache the same call
    panics in [makeLogEntry], after the entry was stored, and so does a
    [Delete] of that key afterwards. *)
Theorem persistent_Set_panics_on_int_key :
  let kv := NewOpenCache 2 true "cache.aof" in
  let r := Set_ kv ∅ 0 (KInt 5) (VInt 1) None in
  ValidateKey (KInt 5) = None
  /\ (Set_ (NewOpenCache 2 false "cache.aof") ∅ 0 (KInt 5) (VInt 1) None).1.1
     = Return true
  /\ r.1.1 = Panic "interface conversion: interface {} is not string"
  /\ LRU_deque r.1.2 = [mkElement 0 (mkEntry (KInt 5) (VInt 1) None)]
  /\ (Delete r.1.2 ∅ (KInt 5)).1.1
     = Panic "interface conversion: interface {} is not string".
Proof. by split_and!. Qed.

(** ** Expiry times set by a replay *)

Lemma wrap64_small z : - 2 ^ 63 <= z < 2 ^ 63 -> wrap64 z = z.
Proof. intros H. unfold wrap64. rewrite Z.mod_small; lia. Qed.

(** What one SET record leaves in a well-formed cache: the entry expires
    [wrap64 (ttl_ms * 1000000)] nanoseconds after the clock reading taken
    while the record is applied when [ttl_ms] is positive, and never
    otherwise. *)
Lemma replay_SET_expiry clock i fields e kv fs :
  wf kv -> Persistent kv = false ->
  json_Unmarshal (LJson fields) = Some e -> Op e = "SET"%string ->
  let r := replay_lines clock i [LJson fields] kv fs in
  r.1.1 = Return None
  /\ exists p, Cache r.1.2 !! KString (Key e) = Some p
       /\ deref (LRU_deque r.1.2) p
          = Some (mkEntry (KString (Key e)) (Val e)
                    (if 0 <? TTLms e
                     then Some (clock i + wrap64 (TTLms e * 1000000))
                     else None)).
Proof.
  intros Hwf Hp Hdec Hop r. subst r. simpl in *. rewrite Hdec, Hop. simpl.
  set (ttl := if 0 <? TTLms e then _ else _).
  pose proof (Set_stores kv fs (clock i) (KString (Key e)) (Val e) ttl Hwf
                eq_refl) as (p & Hc & Hd).
  pose proof (replay_lines_returns clock [LJson fields] i kv fs Hwf Hp)
    as [err Herr].
  simpl in Herr. rewrite Hdec, Hop in Herr. simpl in Herr. fold ttl in Herr.
  destruct (Set_ kv fs (clock i) (KString (Key e)) (Val e) ttl)
    as [[[b|m] kv'] fs']; simpl in *; [|done].
  split; [done|]. exists p. split; [done|]. rewrite Hd. subst ttl.
  by destruct (0 <? TTLms e).
Qed.

(** A record whose [ttl_ms] fits a duration gets the expiry it asks for. *)
Lemma replay_SET_expiry_in_range clock i fields e kv fs :
  wf kv -> Persistent kv = false ->
  json_Unmarshal (LJson fields) = Some e -> Op e = "SET"%string ->
  0 < TTLms e <= 9223372036854 ->
  let r := replay_lines clock i [LJson fields] kv fs in
  exists p, Cache r.1.2 !! KString (Key e) = Some p
    /\ deref (LRU_deque r.1.2) p
       = Some (mkEntry (KString (Key e)) (Val e)
                 (Some (clock i + TTLms e * 1000000))).
Proof.
  intros Hwf Hp Hdec Hop Hrange r.
  destruct (replay_SET_expiry clock i fields e kv fs Hwf Hp Hdec Hop)
    as (_ & p & Hc & Hd).
  exists p. split; [done|]. subst r. rewrite Hd.
  destruct (Z.ltb_spec 0 (TTLms e)); [|lia].
  rewrite wrap64_small; [done|lia].
Qed.

(** A TTL shorter than a millisecond is written without a [ttl_ms] field. *)
Lemma sub_millisecond_ttl_omitted op s v d :
  - 1000000 < d < 1000000 ->
  exists e, makeLogEntry op (KString s) v (Some d) = Return e
    /\ TTLms e = 0 /\ ttl_field (TTLms e) = [].
Proof.
  intros Hd. eexists. split; [reflexivity|]. simpl.
  assert (Hq : Milliseconds d = 0).
  { unfold Milliseconds, Millisecond. apply Z.quot_small_iff; lia. }
  by rewrite Hq.
Qed.

(** C10. A SET record with [ttl_ms = 9223372036855] decodes, and is
    replayed with an expiry that lies before the replay instant instead of
    [ttl_ms] milliseconds after it: the product with [time.Millisecond]
    wraps around. A [Get] right after the replay finds the entry expired. *)
Theorem replay_ttl_wraps_around :
  let record :=
    LJson [("op"%string, JStr "SET"); ("key"%string, JStr "k");
           ("value"%string, JStr "v");
           ("ttl_ms"%string, JNum 9223372036855)] in
  let fs : gmap string fnode := {[ "cache.aof"%string := File [record] ]} in
  let r := ReplayLog (NewOpenCache 2 false "cache.aof") fs
             (fun _ => 1000) "cache.aof" in
  json_Unmarshal record
    = Some (mkLogEntry "SET" "k" (VString "v") 9223372036855)
  /\ r.1.1 = Return None
  /\ deref (LRU_deque r.1.2) 0
     = Some (mkEntry (KString "k") (VString "v")
               (Some (1000 - 9223372036854551616)))
  /\ 1000 - 9223372036854551616 <> 1000 + 9223372036855 * 1000000
  /\ (Get r.1.2 1000 (KString "k")).1 = Return (VNil, false).
Proof. by split_and!. Qed.

(** ** Eviction *)

Lemma persist_returns op k v ttl kv fs :
  (Persistent kv = true -> is_KString k) ->
  (persist op k v ttl kv fs).1.1 = Return true.
Proof.
  intros Hs. unfold persist. destruct (Persistent kv); [|done].
  destruct k; try (by destruct Hs). simpl.
  by destruct (AppendToLog kv fs _).
Qed.

Lemma wf_key_indexed kv k :
  wf kv -> k ∈ keys_of kv <-> is_Some (Cache kv !! k).
Proof.
  intros Hwf. unfold keys_of. rewrite (wf_index _ Hwf).
  rewrite <- not_eq_None_Some, <- not_elem_of_list_to_map.
  split; [tauto|]. intros H. by destruct (decide (k ∈ (index_of (LRU_deque kv)).*1)).
Qed.

(** [Set_] with a new key when the list is full: the back element goes,
    whatever the expiry times are, and the new element is at the front. *)
Lemma Set_evicts_back kv fs now k v ttl :
  wf kv -> ValidateKey k = None -> Cache kv !! k = None ->
  Capacity kv <= Z.of_nat (length (LRU_deque kv)) ->
  exists l back,
    LRU_deque kv = l ++ [back]
    /\ LRU_deque (Set_ kv fs now k v ttl).1.2
       = mkElement (heap_next kv) (mkEntry k v (Time_Add now <$> ttl)) :: l
    /\ Cache (Set_ kv fs now k v ttl).1.2
       = <[k := heap_next kv]> (delete (key (Value back)) (Cache kv)).
Proof.
  intros Hwf Hv Hk Hfull.
  destruct (wf_nonempty_full _ Hwf Hfull) as (l & back & Hs).
  exists l, back. split; [done|].
  rewrite (Set_absent kv fs now k v ttl Hv Hk).
  frame_persist as (-> & -> & _).
  by rewrite (evict_full _ _ _ Hwf Hs Hfull).
Qed.

Lemma Set_keeps_all kv fs now k v ttl :
  ValidateKey k = None -> Cache kv !! k = None ->
  Z.of_nat (length (LRU_deque kv)) < Capacity kv ->
  LRU_deque (Set_ kv fs now k v ttl).1.2
    = mkElement (heap_next kv) (mkEntry k v (Time_Add now <$> ttl))
      :: LRU_deque kv.
Proof.
  intros Hv Hk Hroom.
  rewrite (Set_absent kv fs now k v ttl Hv Hk).
  frame_persist as (_ & -> & _).
  by rewrite (evict_room _ Hroom).
Qed.

(** The keys after a [Set_] with a new key: the new key in front of the
    old ones, cut to the capacity. *)
Lemma Set_new_keys kv fs now k v ttl :
  wf kv -> ValidateKey k = None -> Cache kv !! k = None ->
  keys_of (Set_ kv fs now k v ttl).1.2
    = take (Z.to_nat (Capacity kv)) (k :: keys_of kv).
Proof.
  intros Hwf Hv Hk. pose proof (wf_len _ Hwf) as Hlen.
  pose proof (wf_cap _ Hwf) as Hcap. unfold keys_of.
  destruct (Z.leb_spec (Capacity kv) (Z.of_nat (length (LRU_deque kv))))
    as [Hfull|Hroom].
  - destruct (Set_evicts_back kv fs now k v ttl Hwf Hv Hk Hfull)
      as (l & back & Hs & -> & _).
    rewrite Hs, length_app in Hlen, Hfull. simpl in *.
    rewrite Hs, index_of_app, fmap_app. simpl.
    replace (Z.to_nat (Capacity kv)) with (S (length ((index_of l).*1))).
    + simpl. by rewrite take_app_length.
    + unfold index_of. rewrite !length_fmap. lia.
  - rewrite (Set_keeps_all kv fs now k v ttl Hv Hk Hroom). simpl.
    rewrite take_ge; [done|]. simpl. unfold index_of.
    rewrite !length_fmap. lia.
Qed.

Lemma Set_Capacity kv fs now k v ttl :
  Capacity (Set_ kv fs now k v ttl).1.2 = Capacity kv.
Proof.
  unfold Set_. destruct (ValidateKey k); [done|].
  destruct (Cache kv !! k).
  - destruct (deref (LRU_deque kv) n); [|done].
    by frame_persist as (_ & _ & -> & _).
  - frame_persist as (_ & _ & -> & _).
    simpl. unfold evict. destruct (Capacity kv <=? _); [|done].
    by destruct (Back (LRU_deque kv)).
Qed.

Lemma Set_new_returns kv fs now k v ttl :
  ValidateKey k = None -> Cache kv !! k = None ->
  (Persistent kv = true -> is_KString k) ->
  (Set_ kv fs now k v ttl).1.1 = Return true.
Proof.
  intros Hv Hk Hs. rewrite (Set_absent kv fs now k v ttl Hv Hk).
  apply persist_returns. simpl. by rewrite evict_Persistent.
Qed.

Lemma take_app_take {A} (a b : list A) n :
  take n (a ++ take n b) = take n (a ++ b).
Proof.
  rewrite !take_app, take_take. do 2 f_equal. lia.
Qed.

(** A run of [Set_] calls with keys that are new and pairwise distinct. *)
Lemma run_new_keys cs : forall kv fs,
  wf kv -> Forall is_Set cs ->
  NoDup ((call_key <$> cs) ++ keys_of kv) ->
  Forall (fun c => ValidateKey (call_key c) = None) cs ->
  wf (run_states cs kv fs).1
  /\ Capacity (run_states cs kv fs).1 = Capacity kv
  /\ keys_of (run_states cs kv fs).1
     = take (Z.to_nat (Capacity kv))
         (reverse (call_key <$> cs) ++ keys_of kv)
  /\ ((Persistent kv = true ->
       Forall (fun c => is_KString (call_key c)) cs) ->
      run_calls cs kv fs = Some (run_states cs kv fs)).
Proof.
  induction cs as [|c cs IH]; intros kv fs Hwf Hset Hnd Hval.
  - split_and!; try done. simpl.
    rewrite take_ge; [done|]. pose proof (wf_len _ Hwf).
    unfold keys_of, index_of. rewrite !length_fmap. lia.
  - apply Forall_cons in Hset as [Hc Hset].
    apply Forall_cons in Hval as [Hv Hval].
    destruct c as [now k v ttl|]; [|done]. simpl in *.
    apply NoDup_cons in Hnd as [Hk Hnd].
    assert (Hnone : Cache kv !! k = None).
    { apply eq_None_not_Some. rewrite <- wf_key_indexed by done.
      intros Hin. apply Hk, elem_of_app. by right. }
    pose proof (Set_new_keys kv fs now k v ttl Hwf Hv Hnone) as Hkeys.
    pose proof (wf_Set kv fs now k v ttl Hwf) as Hwf1.
    pose proof (Set_Capacity kv fs now k v ttl) as Hcap.
    pose proof (Set_Persistent kv fs now k v ttl) as Hper.
    pose proof (Set_new_returns kv fs now k v ttl Hv Hnone) as Hret.
    destruct (Set_ kv fs now k v ttl) as [[r kv1] fs1]. simpl in *.
    destruct (IH kv1 fs1 Hwf1 Hset) as (Hwf' & Hcap' & Hk' & Hrun').
    + rewrite Hkeys. apply NoDup_app in Hnd as (Hn1 & Hdisj & Hn2).
      apply NoDup_app. split_and!; [done| |].
      * intros x Hx Hin. apply elem_of_take in Hin as (j & Hj & _).
        apply list_elem_of_lookup_2 in Hj.
        apply elem_of_cons in Hj as [->|Hj].
        -- apply Hk, elem_of_app. by left.
        -- by apply (Hdisj x).
      * eapply sublist_NoDup; [|apply sublist_take].
        apply NoDup_cons. split; [|done].
        intros Hin. apply Hk, elem_of_app. by right.
    + done.
    + split_and!; [done|congruence| |].
      * rewrite Hk', Hkeys, Hcap, take_app_take, reverse_cons.
        by rewrite <- app_assoc.
      * intros Hstr. rewrite Hret.
        -- apply Hrun'. rewrite Hper. intros Hp. specialize (Hstr Hp).
           by apply Forall_cons in Hstr as [_ ?].
        -- intros Hp. specialize (Hstr Hp).
           by apply Forall_cons in Hstr as [? _].
Qed.



(** ** Expiry times do not steer [Set_] and [Delete] *)

Lemma is_at_strip p e : is_at p (strip e) = is_at p e.
Proof. done. Qed.

Lemma find_strip p l :
  List.find (is_at p) (strip <$> l) = strip <$> List.find (is_at p) l.
Proof.
  induction l as [|x l IH]; [done|]. simpl. rewrite is_at_strip.
  by destruct (is_at p x).
Qed.

Lemma deref_strip l p : deref (strip <$> l) p = strip_entry <$> deref l p.
Proof.
  unfold deref. rewrite find_strip. by destruct (List.find (is_at p) l).
Qed.

Lemma Remove_strip l p : Remove (strip <$> l) p = strip <$> Remove l p.
Proof.
  induction l as [|x l IH]; [done|]. rewrite fmap_cons.
  unfold Remove in *. simpl List.filter. rewrite is_at_strip.
  destruct (is_at p x); simpl; [exact IH|]. by rewrite IH.
Qed.

Lemma MoveToFront_strip l p :
  MoveToFront (strip <$> l) p = strip <$> MoveToFront l p.
Proof.
  unfold MoveToFront. rewrite find_strip.
  destruct (List.find (is_at p) l); simpl; [|done]. by rewrite Remove_strip.
Qed.

Lemma store_strip l p ent :
  store (strip <$> l) p (strip_entry ent) = strip <$> store l p ent.
Proof.
  induction l as [|x l IH]; [done|]. rewrite fmap_cons.
  unfold store in *. simpl List.map. rewrite is_at_strip, IH.
  rewrite fmap_cons. f_equal. by destruct (is_at p x).
Qed.

Lemma Back_strip l : Back (strip <$> l) = strip <$> Back l.
Proof. unfold Back. apply fmap_last. Qed.

Lemma erase_same_mem kv kv' : same_mem kv kv' -> erase kv' = erase kv.
Proof. intros (Hc & Hl & Hcap & Hh & _). unfold erase. congruence. Qed.

Lemma erase_persist op k v ttl kv fs :
  erase (persist op k v ttl kv fs).1.2 = erase kv.
Proof. apply erase_same_mem, persist_mem. Qed.

Lemma erase_evict kv : erase (evict kv) = evict (erase kv).
Proof.
  unfold evict. simpl. rewrite length_fmap.
  destruct (Capacity kv <=? _); [|done].
  rewrite Back_strip. destruct (Back (LRU_deque kv)) as [back|]; [|done].
  simpl. unfold erase. simpl. by rewrite Remove_strip.
Qed.

Lemma erase_idem kv : erase (erase kv) = erase kv.
Proof.
  unfold erase. simpl. f_equal. rewrite <- list_fmap_compose.
  apply list_fmap_ext. by intros ? [? []].
Qed.

(** The erased state after [Set_] is a function of the erased state
    before, the key and the value. *)
Lemma erase_Set kv fs now k v ttl :
  erase (Set_ kv fs now k v ttl).1.2
  = erase (Set_ (erase kv) ∅ 0 k v None).1.2.
Proof.
  unfold Set_. destruct (ValidateKey k); [symmetry; apply erase_idem|].
  change (Cache (erase kv)) with (Cache kv).
  destruct (Cache kv !! k) as [p|].
  - change (LRU_deque (erase kv)) with (strip <$> LRU_deque kv).
    rewrite deref_strip. destruct (deref (LRU_deque kv) p) as [ent|]; simpl;
      [|symmetry; apply erase_idem].
    rewrite !erase_persist. unfold erase. simpl. f_equal.
    + change (mkEntry (key ent) v None)
        with (strip_entry (mkEntry (key ent) v (Time_Add now <$> ttl))).
      rewrite store_strip, MoveToFront_strip, <- list_fmap_compose.
      apply list_fmap_ext. by intros ? [? []].
  - rewrite !erase_persist. rewrite <- erase_evict.
    unfold erase. simpl. f_equal. f_equal. rewrite <- list_fmap_compose.
    apply list_fmap_ext. by intros ? [? []].
Qed.

Lemma erase_Delete kv fs k :
  erase (Delete kv fs k).1.2 = erase (Delete (erase kv) ∅ k).1.2.
Proof.
  unfold Delete. destruct (ValidateKey k); [symmetry; apply erase_idem|].
  change (Cache (erase kv)) with (Cache kv).
  destruct (Cache kv !! k) as [p|]; [|symmetry; apply erase_idem].
  rewrite !erase_persist. unfold erase. simpl. f_equal.
  rewrite Remove_strip, <- list_fmap_compose.
  apply list_fmap_ext. by intros ? [? []].
Qed.

Lemma erase_sim_Set kvA kvB fsA fsB nowA nowB k v ttlA ttlB :
  erase kvB = erase kvA ->
  erase (Set_ kvB fsB nowB k v ttlB).1.2
  = erase (Set_ kvA fsA nowA k v ttlA).1.2.
Proof.
  intros H. rewrite (erase_Set kvB), (erase_Set kvA). by rewrite H.
Qed.

Lemma erase_sim_Delete kvA kvB fsA fsB k :
  erase kvB = erase kvA ->
  erase (Delete kvB fsB k).1.2 = erase (Delete kvA fsA k).1.2.
Proof.
  intros H. rewrite (erase_Delete kvB), (erase_Delete kvA). by rewrite H.
Qed.

Lemma erase_contents kvA kvB :
  erase kvB = erase kvA ->
  contents kvB = contents kvA /\ Cache kvB = Cache kvA.
Proof.
  intros H.
  assert (Hc : forall kv, contents kv = contents (erase kv)).
  { intros kv. unfold contents, erase. simpl.
    by rewrite <- list_fmap_compose. }
  split.
  - by rewrite (Hc kvB), (Hc kvA), H.
  - change (Cache (erase kvB) = Cache (erase kvA)). by rewrite H.
Qed.

(** ** What the writer appends and what the reader makes of it *)

Lemma in_int64_Milliseconds d :
  in_int64 d = true -> in_int64 (Milliseconds d) = true.
Proof.
  unfold in_int64, Milliseconds, Millisecond.
  rewrite !andb_true_iff, !Z.leb_le, !Z.ltb_lt. intros [Hlo Hhi].
  destruct (Z.le_gt_cases 0 d).
  - pose proof (Z.quot_pos d 1000000). 
    pose proof (Z.quot_le_upper_bound d 1000000 d). lia.
  - assert (Hq : d ÷ 1000000 = - ((- d) ÷ 1000000))
      by (rewrite Z.quot_opp_l; lia).
    pose proof (Z.quot_pos (- d) 1000000).
    pose proof (Z.quot_le_upper_bound (- d) 1000000 (- d)). lia.
Qed.

Lemma set_field_op s e :
  set_field "op" (JStr s) e = Some (mkLogEntry s (Key e) (Val e) (TTLms e)).
Proof. reflexivity. Qed.

Lemma set_field_key s e :
  set_field "key" (JStr s) e = Some (mkLogEntry (Op e) s (Val e) (TTLms e)).
Proof. reflexivity. Qed.

Lemma set_field_value j e :
  set_field "value" j e
  = Some (mkLogEntry (Op e) (Key e) (go_of_json j) (TTLms e)).
Proof. reflexivity. Qed.

Lemma set_field_ttl_ms n e :
  in_int64 n = true ->
  set_field "ttl_ms" (JNum n) e = Some (mkLogEntry (Op e) (Key e) (Val e) n).
Proof. intros H. unfold set_field. simpl. by rewrite H. Qed.

(** Decoding a line the writer produced gives the record back, when the
    value survives JSON and [ttl_ms] is a 64-bit integer. *)
Lemma Unmarshal_log_line e :
  json_stable (Val e) -> in_int64 (TTLms e) = true ->
  json_Unmarshal (log_line e) = Some e.
Proof.
  destruct e as [op k v t]. unfold json_stable, log_line, json_Marshal.
  simpl. intros Hv Ht. unfold ttl_field.
  destruct v; try discriminate;
    destruct (Z.eqb_spec t 0) as [->|Hne];
    cbn [json_of_go mbind option_bind app json_Unmarshal decode_fields];
    repeat (first [ rewrite set_field_op | rewrite set_field_key
                  | rewrite set_field_value
                  | rewrite (set_field_ttl_ms _ _ Ht) ];
            cbn [mbind option_bind Op Key Val TTLms go_of_json]);
    reflexivity.
Qed.

Lemma log_file_AppendToLog kv fs e :
  log_file (AppendToLog kv fs e).1 = log_file kv.
Proof.
  unfold AppendToLog, log_file.
  destruct (Nat.eqb (String.length (LogPath kv)) 0) eqn:Hl;
    destruct (OpenFile_append _ _); simpl; by rewrite ?Hl.
Qed.

(** A persistent call that returned: the key was a string and, the log
    being openable, one line was appended. *)
Lemma persist_logged op k v ttl kv fs ls r kv' fs' :
  Persistent kv = true -> OpenFile_append fs (log_file kv) = Some ls ->
  persist op k v ttl kv fs = (Return r, kv', fs') ->
  exists e, makeLogEntry op k v ttl = Return e
    /\ fs' = <[log_file kv := File (ls ++ [log_line e])]> fs
    /\ log_file kv' = log_file kv /\ same_mem kv kv'.
Proof.
  intros Hp Hopen Hrun.
  pose proof (persist_mem op k v ttl kv fs) as Hmem.
  rewrite Hrun in Hmem. simpl in Hmem.
  unfold persist in Hrun. rewrite Hp in Hrun.
  destruct (makeLogEntry op k v ttl) as [e|m]; [|done].
  exists e. pose proof (log_file_AppendToLog kv fs e) as Hlf.
  assert (Happ : (AppendToLog kv fs e).2
                 = <[log_file kv := File (ls ++ [log_line e])]> fs).
  { unfold AppendToLog, log_file in *.
    destruct (Nat.eqb (String.length (LogPath kv)) 0); simpl in *;
      by rewrite Hopen. }
  destruct (AppendToLog kv fs e) as [kv1 fs1]. simpl in *.
  injection Hrun as _ <- <-. by split_and!.
Qed.

Lemma Set_logged kv fs now k v ttl ls kv' fs' :
  wf kv -> Persistent kv = true ->
  OpenFile_append fs (log_file kv) = Some ls ->
  Set_ kv fs now k v ttl = (Return true, kv', fs') ->
  exists e, makeLogEntry "SET" k v ttl = Return e
    /\ fs' = <[log_file kv := File (ls ++ [log_line e])]> fs
    /\ log_file kv' = log_file kv.
Proof.
  intros Hwf Hp Hopen Hrun.
  destruct (ValidateKey k) as [m|] eqn:Hv.
  { rewrite Set_invalid in Hrun; [done|congruence]. }
  destruct (Cache kv !! k) as [p|] eqn:Hk.
  - destruct (wf_lookup _ _ _ Hwf Hk) as (l1 & x & l2 & Hs & _ & <-).
    rewrite (Set_present kv fs now v ttl l1 x l2 Hwf Hs) in Hrun.
    eapply persist_logged in Hrun as (e & He & Hfs & Hlf & _);
      [by exists e|exact Hp|exact Hopen].
  - rewrite (Set_absent kv fs now k v ttl Hv Hk) in Hrun.
    eapply persist_logged in Hrun as (e & He & Hfs & Hlf & _).
    + exists e. split_and!; [done| |].
      * rewrite Hfs. unfold log_file. simpl. by rewrite evict_LogPath.
      * rewrite Hlf. unfold log_file. simpl. by rewrite evict_LogPath.
    + simpl. by rewrite evict_Persistent.
    + unfold log_file in *. simpl. by rewrite evict_LogPath.
Qed.

Lemma Delete_logged kv fs k ls kv' fs' :
  wf kv -> Persistent kv = true ->
  OpenFile_append fs (log_file kv) = Some ls ->
  Delete kv fs k = (Return true, kv', fs') ->
  exists e, makeLogEntry "DELETE" k VNil None = Return e
    /\ fs' = <[log_file kv := File (ls ++ [log_line e])]> fs
    /\ log_file kv' = log_file kv.
Proof.
  intros Hwf Hp Hopen Hrun.
  destruct (Cache kv !! k) as [p|] eqn:Hk.
  - destruct (wf_lookup _ _ _ Hwf Hk) as (l1 & x & l2 & Hs & _ & <-).
    rewrite (Delete_present kv fs l1 x l2 Hwf Hs) in Hrun.
    eapply persist_logged in Hrun as (e & He & Hfs & Hlf & _);
      [by exists e|exact Hp|exact Hopen].
  - by rewrite Delete_absent in Hrun.
Qed.

Lemma Set_off_returns kv fs now k v ttl :
  wf kv -> Persistent kv = false ->
  exists b, (Set_ kv fs now k v ttl).1.1 = Return b.
Proof.
  intros Hwf Hp. destruct (ValidateKey k) as [m|] eqn:Hv.
  { rewrite Set_invalid; [by eexists|congruence]. }
  destruct (Cache kv !! k) as [p|] eqn:Hk.
  - destruct (wf_lookup _ _ _ Hwf Hk) as (l1 & x & l2 & Hs & _ & <-).
    rewrite (Set_present _ _ _ _ _ _ _ _ Hwf Hs).
    rewrite persist_off by done. by eexists.
  - rewrite Set_absent by done. rewrite persist_off; [by eexists|].
    simpl. by rewrite evict_Persistent.
Qed.

Lemma Delete_off_returns kv fs k :
  wf kv -> Persistent kv = false ->
  exists b, (Delete kv fs k).1.1 = Return b.
Proof.
  intros Hwf Hp. destruct (Cache kv !! k) as [p|] eqn:Hk.
  - destruct (wf_lookup _ _ _ Hwf Hk) as (l1 & x & l2 & Hs & _ & <-).
    rewrite (Delete_present _ _ _ _ _ Hwf Hs).
    rewrite persist_off by done. by eexists.
  - rewrite Delete_absent by done. by eexists.
Qed.

(** ** Replaying the log of a run *)

Lemma replay_lines_decoded clock i l rest e kv fs :
  json_Unmarshal l = Some e ->
  replay_lines clock i (l :: rest) kv fs =
    if String.eqb (Op e) "SET" then
      match Set_ kv fs (clock i) (KString (Key e)) (Val e)
              (if 0 <? TTLms e then Some (wrap64 (TTLms e * Millisecond))
               else None) with
      | (Return _, kv', fs') => replay_lines clock (S i) rest kv' fs'
      | (Panic m, kv', fs') => (Panic m, kv', fs')
      end
    else if String.eqb (Op e) "DELETE" then
      match Delete kv fs (KString (Key e)) with
      | (Return _, kv', fs') => replay_lines clock (S i) rest kv' fs'
      | (Panic m, kv', fs') => (Panic m, kv', fs')
      end
    else replay_lines clock (S i) rest kv fs.
Proof. intros He. destruct l; try done. simpl in *. by rewrite He. Qed.

Lemma OpenFile_append_insert (fs : gmap string fnode) p ls :
  OpenFile_append (<[p := File ls]> fs) p = Some ls.
Proof. unfold OpenFile_append. by rewrite lookup_insert_eq. Qed.

(** One returning call on the writer's side, and the line it appended on
    the reader's side. *)
Lemma call_then_replay c kvA fs ls kv1 fs1 :
  wf kvA -> Persistent kvA = true ->
  OpenFile_append fs (log_file kvA) = Some ls ->
  call_ok c ->
  do_call kvA fs c = (Return true, kv1, fs1) ->
  exists l, OpenFile_append fs1 (log_file kvA) = Some (ls ++ [l])
    /\ log_file kv1 = log_file kvA /\ wf kv1 /\ Persistent kv1 = true
    /\ forall clock i rest kvB fsx,
         wf kvB -> Persistent kvB = false -> erase kvB = erase kvA ->
         exists kvB1 fsx1,
           replay_lines clock i (l :: rest) kvB fsx
             = replay_lines clock (S i) rest kvB1 fsx1
           /\ wf kvB1 /\ Persistent kvB1 = false
           /\ erase kvB1 = erase kv1.
Proof.
  intros Hwf Hp Hopen Hok Hcall.
  destruct c as [now k v ttl|k]; simpl in Hok, Hcall.
  - destruct Hok as [Hv Httl].
    destruct (Set_logged _ _ _ _ _ _ _ _ _ Hwf Hp Hopen Hcall)
      as (e & He & -> & Hlf).
    pose proof (wf_Set kvA fs now k v ttl Hwf) as Hwf1.
    pose proof (Set_Persistent kvA fs now k v ttl) as Hp1.
    rewrite Hcall in Hwf1, Hp1. simpl in Hwf1, Hp1.
    destruct k as [|s| | |]; try done. injection He as <-.
    set (e := mkLogEntry "SET" s v _).
    assert (Hdec : json_Unmarshal (log_line e) = Some e).
    { apply Unmarshal_log_line; [done|]. simpl.
      destruct ttl as [d|]; [by apply in_int64_Milliseconds|done]. }
    refine (ex_intro _ (log_line e) (conj _ (conj _ (conj _ (conj _ _)))));
      [apply OpenFile_append_insert|done|done|congruence|].
    intros clock i rest kvB fsx HwfB HpB Herase.
    rewrite (replay_lines_decoded clock i (log_line e) rest e kvB fsx Hdec).
    simpl.
    set (ttl' := if 0 <? _ then _ else _).
    pose proof (wf_Set kvB fsx (clock i) (KString s) v ttl' HwfB) as HwfB1.
    pose proof (Set_Persistent kvB fsx (clock i) (KString s) v ttl') as HpB1.
    pose proof (Set_off_returns kvB fsx (clock i) (KString s) v ttl' HwfB HpB)
      as [b Hb].
    pose proof (erase_sim_Set kvA kvB fs fsx now (clock i) (KString s) v
                  ttl ttl' Herase) as Hsim.
    rewrite Hcall in Hsim.
    destruct (Set_ kvB fsx (clock i) (KString s) v ttl')
      as [[[b'|m] kvB1] fsx1]; simpl in *; [|done].
    exists kvB1, fsx1. split_and!; [done|done|congruence|done].
  - destruct (Delete_logged _ _ _ _ _ _ Hwf Hp Hopen Hcall)
      as (e & He & -> & Hlf).
    pose proof (wf_Delete kvA fs k Hwf) as Hwf1.
    pose proof (Delete_Persistent kvA fs k) as Hp1.
    rewrite Hcall in Hwf1, Hp1. simpl in Hwf1, Hp1.
    destruct k as [|s| | |]; try done. injection He as <-.
    set (e := mkLogEntry "DELETE" s VNil 0).
    assert (Hdec : json_Unmarshal (log_line e) = Some e).
    { by apply Unmarshal_log_line. }
    refine (ex_intro _ (log_line e) (conj _ (conj _ (conj _ (conj _ _)))));
      [apply OpenFile_append_insert|done|done|congruence|].
    intros clock i rest kvB fsx HwfB HpB Herase.
    rewrite (replay_lines_decoded clock i (log_line e) rest e kvB fsx Hdec).
    simpl.
    pose proof (wf_Delete kvB fsx (KString s) HwfB) as HwfB1.
    pose proof (Delete_Persistent kvB fsx (KString s)) as HpB1.
    pose proof (Delete_off_returns kvB fsx (KString s) HwfB HpB) as [b Hb].
    pose proof (erase_sim_Delete kvA kvB fs fsx (KString s) Herase) as Hsim.
    rewrite Hcall in Hsim.
    destruct (Delete kvB fsx (KString s)) as [[[b'|m] kvB1] fsx1];
      simpl in *; [|done].
    exists kvB1, fsx1. split_and!; [done|done|congruence|done].
Qed.

(** The lines a run of returning calls appends to an openable log, replayed
    into a cache that agrees with the run's starting state up to expiry
    times, lead to a cache that agrees with the run's final state up to
    expiry times. *)
Lemma run_then_replay cs : forall kvA fs ls kvA' fs',
  wf kvA -> Persistent kvA = true ->
  OpenFile_append fs (log_file kvA) = Some ls ->
  Forall call_ok cs ->
  run_calls cs kvA fs = Some (kvA', fs') ->
  exists ls', OpenFile_append fs' (log_file kvA) = Some (ls ++ ls')
    /\ forall clock i kvB fsx,
         wf kvB -> Persistent kvB = false -> erase kvB = erase kvA ->
         erase (replay_lines clock i ls' kvB fsx).1.2 = erase kvA'.
Proof.
  induction cs as [|c cs IH]; intros kvA fs ls kvA' fs' Hwf Hp Hopen Hok Hrun.
  - injection Hrun as <- <-. exists []. by rewrite app_nil_r.
  - apply Forall_cons in Hok as [Hc Hok]. simpl in Hrun.
    destruct (do_call kvA fs c) as [[r kv1] fs1] eqn:Hcall.
    destruct r as [[|]|]; try done.
    destruct (call_then_replay c kvA fs ls kv1 fs1 Hwf Hp Hopen Hc Hcall)
      as (l & Hopen1 & Hlf & Hwf1 & Hp1 & Hreplay).
    rewrite <- Hlf in Hopen1.
    destruct (IH kv1 fs1 (ls ++ [l]) kvA' fs' Hwf1 Hp1 Hopen1 Hok Hrun)
      as (ls' & Hopen' & Hrest).
    exists (l :: ls'). split.
    + rewrite <- Hlf, Hopen'. by rewrite <- app_assoc.
    + intros clock i kvB fsx HwfB HpB Herase.
      destruct (Hreplay clock i ls' kvB fsx HwfB HpB Herase)
        as (kvB1 & fsx1 & -> & HwfB1 & HpB1 & Herase1).
      by apply Hrest.
Qed.




(** * Further properties *)

(** ** Elements, keys and the index *)

Lemma wf_elem kv e :
  wf kv -> e ∈ LRU_deque kv ->
  Cache kv !! key (Value e) = Some (addr e)
  /\ deref (LRU_deque kv) (addr e) = Some (Value e).
Proof.
  intros Hwf He. apply list_elem_of_split in He as (l1 & l2 & Hs).
  pose proof (wf_addrs _ Hwf) as Ha. pose proof (wf_keys _ Hwf) as Hk.
  rewrite Hs in Ha, Hk. split.
  - rewrite (wf_index _ Hwf), Hs.
    destruct (index_split l1 e l2 Hk) as (-> & _). apply lookup_insert_eq.
  - rewrite Hs. by apply deref_split.
Qed.

Lemma wf_deref kv k p :
  wf kv -> Cache kv !! k = Some p ->
  exists ent, deref (LRU_deque kv) p = Some ent /\ key ent = k
    /\ mkElement p ent ∈ LRU_deque kv.
Proof.
  intros Hwf Hk.
  destruct (wf_lookup _ _ _ Hwf Hk) as (l1 & e & l2 & Hs & <- & <-).
  pose proof (wf_addrs _ Hwf) as Ha. rewrite Hs in Ha.
  exists (Value e). rewrite Hs, deref_split by done. split_and!; [done..|].
  destruct e. apply elem_of_app. right. left.
Qed.

(** [Get] on an indexed key, by the entry's expiry. *)
Lemma Get_entry kv now k p ent :
  wf kv -> Cache kv !! k = Some p -> deref (LRU_deque kv) p = Some ent ->
  Get kv now k =
    if expired now ent
    then (Return (VNil, false),
          with_deque (with_index kv (delete k (Cache kv)))
            (Remove (LRU_deque kv) p))
    else (Return (value ent, true),
          with_deque kv (mkElement p ent :: Remove (LRU_deque kv) p)).
Proof.
  intros Hwf Hk Hd.
  destruct (wf_split_at _ _ _ _ Hwf Hk Hd) as (l1 & l2 & Hs & <-).
  pose proof (wf_addrs _ Hwf) as Ha. rewrite Hs in Ha.
  pose proof (Get_present kv now l1 _ l2 Hwf Hs) as HG. simpl in HG.
  pose proof (Remove_split l1 _ l2 Ha) as HR. simpl in HR.
  by rewrite Hs, HR.
Qed.

(** ** [Set] then [Get] *)



(** ** [Delete] *)



(** ** How [Len] moves *)



(** ** Recency *)



(** ** What an operation leaves alone *)

Lemma elem_of_Remove (l : list Element) p e :
  e ∈ l -> addr e <> p -> e ∈ Remove l p.
Proof.
  intros He Hne. unfold Remove. apply list_elem_of_In, List.filter_In.
  split; [by apply list_elem_of_In|].
  unfold is_at. by destruct (Nat.eqb_spec (addr e) p).
Qed.

Lemma wf_other_addr kv k p e :
  wf kv -> Cache kv !! k = Some p -> e ∈ LRU_deque kv ->
  key (Value e) <> k -> addr e <> p.
Proof.
  intros Hwf Hk He Hne Heq. subst p.
  destruct (wf_deref _ _ _ Hwf Hk) as (ent & Hd & Hkey & _).
  destruct (wf_elem _ _ Hwf He) as [_ Hd']. congruence.
Qed.

(** X5. An operation on one key leaves the elements of the other keys as
    they are, value and expiry included, with one exception: [Set_] of a
    new key into a full cache drops the element at the back. In
    particular no operation removes an entry because it has expired,
    except a [Get] of that very key. *)
Theorem other_entries_survive kv fs now k v ttl e :
  reachable kv -> e ∈ LRU_deque kv -> key (Value e) <> k ->
  e ∈ LRU_deque (Get kv now k).2
  /\ e ∈ LRU_deque (Delete kv fs k).1.2
  /\ (e ∈ LRU_deque (Set_ kv fs now k v ttl).1.2
      \/ (Back (LRU_deque kv) = Some e /\ Cache kv !! k = None
          /\ ValidateKey k = None
          /\ Capacity kv <= Z.of_nat (length (LRU_deque kv)))).
Proof.
  intros Hr He Hne. pose proof (reachable_wf _ Hr) as Hwf.
  destruct (Cache kv !! k) as [p|] eqn:Hk.
  - destruct (wf_deref _ _ _ Hwf Hk) as (ent & Hd & Hkey & _).
    pose proof (wf_other_addr _ _ _ _ Hwf Hk He Hne) as Hp.
    pose proof (elem_of_Remove _ _ _ He Hp) as HeR.
    destruct (wf_lookup _ _ _ Hwf Hk) as (l1 & x & l2 & Hs & Hax & Hkx).
    pose proof (wf_addrs _ Hwf) as Ha. rewrite Hs in Ha.
    split_and!.
    + rewrite (Get_entry kv now k p ent Hwf Hk Hd).
      destruct (expired now ent); simpl; [done|by right].
    + rewrite <- Hkx, (Delete_present kv fs l1 x l2 Hwf Hs).
      frame_persist as (_ & -> & _). simpl.
      rewrite <- (Remove_split l1 x l2 Ha), <- Hs, Hax. done.
    + left. rewrite <- Hkx, (Set_present kv fs now v ttl l1 x l2 Hwf Hs).
      frame_persist as (_ & -> & _). simpl. right.
      rewrite <- (Remove_split l1 x l2 Ha), <- Hs, Hax. done.
  - split_and!.
    + by rewrite Get_absent.
    + by rewrite Delete_absent.
    + destruct (ValidateKey k) as [m|] eqn:Hv.
      { left. rewrite Set_invalid; [done|congruence]. }
      destruct (Z.leb_spec (Capacity kv) (Z.of_nat (length (LRU_deque kv))))
        as [Hfull|Hroom].
      * destruct (Set_evicts_back kv fs now k v ttl Hwf Hv Hk Hfull)
          as (l & back & Hs & -> & _).
        rewrite Hs in He. apply elem_of_app in He as [He|He].
        -- left. by right.
        -- apply list_elem_of_singleton in He as ->. right.
           unfold Back. rewrite Hs in Hfull |- *. rewrite last_snoc.
           by split_and!.
      * left. rewrite (Set_keeps_all kv fs now k v ttl Hv Hk Hroom).
        by right.
Qed.

Lemma other_entries_survive_witness :
  mkElement 0 (mkEntry (KString "x") (VString "v") (Some 150))
    ∈ LRU_deque (Set_ expiring ∅ 999 (KString "y") (VInt 2) None).1.2.
Proof.
  destruct (other_entries_survive expiring ∅ 999 (KString "y") (VInt 2) None
              (mkElement 0 (mkEntry (KString "x") (VString "v") (Some 150))))
    as (_ & _ & [Hin|(_ & _ & _ & Hfull)]).
  - apply reach_Set, reach_New.
  - left.
  - discriminate.
  - exact Hin.
  - exfalso. vm_compute in Hfull. by apply Hfull.
Defined.

(** ** Calls that cannot panic *)

Lemma Get_returns kv now k :
  wf kv -> exists r, (Get kv now k).1 = Return r.
Proof.
  intros Hwf. destruct (Cache kv !! k) as [p|] eqn:Hk.
  - destruct (wf_deref _ _ _ Hwf Hk) as (ent & Hd & _).
    rewrite (Get_entry kv now k p ent Hwf Hk Hd).
    destruct (expired now ent); by eexists.
  - rewrite Get_absent by done. by eexists.
Qed.

Lemma Set_returns kv fs now k v ttl :
  wf kv -> (Persistent kv = true -> is_KString k) ->
  (Set_ kv fs now k v ttl).1.1 = Return (bool_decide (ValidateKey k = None)).
Proof.
  intros Hwf Hstr. destruct (ValidateKey k) as [m|] eqn:Hv.
  { rewrite Set_invalid; [done|congruence]. }
  destruct (Cache kv !! k) as [p|] eqn:Hk.
  - destruct (wf_lookup _ _ _ Hwf Hk) as (l1 & x & l2 & Hs & _ & <-).
    rewrite (Set_present _ _ _ _ _ _ _ _ Hwf Hs). by apply persist_returns.
  - by apply Set_new_returns.
Qed.

Lemma Delete_returns kv fs k :
  wf kv -> (Persistent kv = true -> is_KString k) ->
  (Delete kv fs k).1.1 = Return (bool_decide (is_Some (Cache kv !! k))).
Proof.
  intros Hwf Hstr. destruct (Cache kv !! k) as [p|] eqn:Hk.
  - destruct (wf_lookup _ _ _ Hwf Hk) as (l1 & x & l2 & Hs & _ & <-).
    rewrite (Delete_present _ _ _ _ _ Hwf Hs).
    by rewrite persist_returns.
  - by rewrite Delete_absent.
Qed.





(** ** What never changes *)

Lemma persist_log_file op k v ttl kv fs :
  log_file (persist op k v ttl kv fs).1.2 = log_file kv.
Proof.
  unfold persist. destruct (Persistent kv); [|done].
  destruct (makeLogEntry op k v ttl) as [e|m]; [|done].
  pose proof (log_file_AppendToLog kv fs e) as H.
  by destruct (AppendToLog kv fs e).
Qed.

Lemma evict_Capacity kv : Capacity (evict kv) = Capacity kv.
Proof.
  unfold evict. destruct (Capacity kv <=? _); [|done].
  by destruct (Back (LRU_deque kv)).
Qed.

Lemma Set_log_file kv fs now k v ttl :
  log_file (Set_ kv fs now k v ttl).1.2 = log_file kv.
Proof.
  unfold Set_. destruct (ValidateKey k); [done|].
  destruct (Cache kv !! k).
  - destruct (deref (LRU_deque kv) n); [|done]. by rewrite persist_log_file.
  - rewrite persist_log_file. unfold log_file. simpl.
    by rewrite evict_LogPath.
Qed.

Lemma Delete_config kv fs k :
  Capacity (Delete kv fs k).1.2 = Capacity kv
  /\ log_file (Delete kv fs k).1.2 = log_file kv.
Proof.
  unfold Delete. destruct (ValidateKey k); [done|].
  destruct (Cache kv !! k); [|done]. rewrite persist_log_file.
  by frame_persist as (_ & _ & -> & _).
Qed.

Lemma Get_config kv now k :
  Capacity (Get kv now k).2 = Capacity kv
  /\ log_file (Get kv now k).2 = log_file kv.
Proof.
  unfold Get. destruct (ValidateKey k); [done|].
  destruct (Cache kv !! k); [|done].
  destruct (deref (LRU_deque kv) n); [|done].
  by destruct (expired now e).
Qed.

(** X8. No operation changes how a cache is configured: after [Get],
    [Set_], [Delete] and [ReplayLog] the capacity, the persistence flag
    and the file the cache logs to are what they were, for every cache,
    key and disk. *)
Theorem configuration_is_fixed kv fs now k v ttl clock filename :
  let unchanged kv' :=
    Capacity kv' = Capacity kv /\ Persistent kv' = Persistent kv
    /\ log_file kv' = log_file kv in
  unchanged (Get kv now k).2
  /\ unchanged (Set_ kv fs now k v ttl).1.2
  /\ unchanged (Delete kv fs k).1.2
  /\ unchanged (ReplayLog kv fs clock filename).1.2.
Proof.
  intros unchanged. unfold unchanged. split_and!;
    try apply Get_config; try apply Delete_config;
    try apply Set_Capacity; try apply Set_log_file;
    try apply Get_Persistent; try apply Set_Persistent;
    try apply Delete_Persistent.
  - unfold ReplayLog. destruct (Open fs filename) as [err|[|ls]]; [done..|].
    pose proof (replay_lines_invariant
      (fun kv' _ => Capacity kv' = Capacity kv)) as HI.
    specialize (HI (fun kv' fs' now' k' v' ttl' H =>
                      eq_trans (Set_Capacity kv' fs' now' k' v' ttl') H)).
    specialize (HI (fun kv' fs' k' H =>
                      eq_trans (proj1 (Delete_config kv' fs' k')) H)).
    specialize (HI clock ls 0%nat (with_Persistent kv false) fs eq_refl).
    by destruct (replay_lines clock 0 ls (with_Persistent kv false) fs)
      as [[r kv2] fs2].
  - unfold ReplayLog. destruct (Open fs filename) as [err|[|ls]]; [done..|].
    by destruct (replay_lines clock 0 ls (with_Persistent kv false) fs)
      as [[r kv2] fs2].
  - unfold ReplayLog. destruct (Open fs filename) as [err|[|ls]]; [done..|].
    pose proof (replay_lines_invariant
      (fun kv' _ => log_file kv' = log_file kv)) as HI.
    specialize (HI (fun kv' fs' now' k' v' ttl' H =>
                      eq_trans (Set_log_file kv' fs' now' k' v' ttl') H)).
    specialize (HI (fun kv' fs' k' H =>
                      eq_trans (proj2 (Delete_config kv' fs' k')) H)).
    specialize (HI clock ls 0%nat (with_Persistent kv false) fs eq_refl).
    by destruct (replay_lines clock 0 ls (with_Persistent kv false) fs)
      as [[r kv2] fs2].
Qed.

(** ** The index map and the recency list *)



(** ** What a run writes *)

Lemma do_call_logged c kv fs ls kv' fs' :
  wf kv -> Persistent kv = true ->
  OpenFile_append fs (log_file kv) = Some ls ->
  do_call kv fs c = (Return true, kv', fs') ->
  exists e, call_record c = Return e
    /\ fs' = <[log_file kv := File (ls ++ [log_line e])]> fs
    /\ log_file kv' = log_file kv.
Proof.
  intros Hwf Hp Hopen Hcall. destruct c as [now k v ttl|k]; simpl in *.
  - by eapply Set_logged.
  - by eapply Delete_logged.
Qed.

(** X10. On a persistent cache whose log file can be opened, a run of calls
    that all return [true] appends exactly one line per call, in call
    order, after the lines the file already had: the line of a call is the
    encoding of the record [makeLogEntry] builds for it. No other file on
    the disk is touched. *)
Theorem log_fidelity cs : forall kv fs ls kv' fs',
  reachable kv -> Persistent kv = true ->
  OpenFile_append fs (log_file kv) = Some ls ->
  run_calls cs kv fs = Some (kv', fs') ->
  exists es,
    Forall2 (fun c e => call_record c = Return e) cs es
    /\ OpenFile_append fs' (log_file kv) = Some (ls ++ (log_line <$> es))
    /\ forall q, q <> log_file kv -> fs' !! q = fs !! q.
Proof.
  induction cs as [|c cs IH]; intros kv fs ls kv' fs' Hr Hp Hopen Hrun.
  - injection Hrun as <- <-. exists []. split_and!; [constructor| |done].
    by rewrite app_nil_r.
  - simpl in Hrun.
    assert (Hr1 : reachable (do_call kv fs c).1.2)
      by (destruct c; [apply reach_Set|apply reach_Delete]; done).
    assert (Hp1 : Persistent (do_call kv fs c).1.2 = true).
    { destruct c; simpl; by rewrite ?Set_Persistent, ?Delete_Persistent. }
    destruct (do_call kv fs c) as [[r kv1] fs1] eqn:Hcall.
    destruct r as [[|]|]; try done. simpl in Hr1, Hp1.
    destruct (do_call_logged c kv fs ls kv1 fs1 (reachable_wf _ Hr) Hp Hopen
                Hcall) as (e & He & -> & Hlf).
    destruct (IH kv1 (<[log_file kv := File (ls ++ [log_line e])]> fs)
                (ls ++ [log_line e]) kv' fs' Hr1 Hp1) as
      (es & Hes & Hopen' & Hother); [|done|].
    { rewrite Hlf. apply OpenFile_append_insert. }
    exists (e :: es). split_and!.
    + by constructor.
    + rewrite <- Hlf, Hopen', fmap_cons. by rewrite <- app_assoc.
    + intros q Hq. rewrite Hother by (by rewrite Hlf).
      by apply lookup_insert_ne.
Qed.

Lemma log_fidelity_witness :
  exists kv' fs' es,
    run_calls session_run (NewOpenCache 10 true EmptyString) ∅
      = Some (kv', fs')
    /\ Forall2 (fun c e => call_record c = Return e) session_run es
    /\ OpenFile_append fs' "appendonly.aof" = Some (log_line <$> es).
Proof.
  destruct (run_calls session_run (NewOpenCache 10 true EmptyString) ∅)
    as [[kv' fs']|] eqn:Hrun; [|by vm_compute in Hrun].
  assert (Hopen0 : OpenFile_append ∅
                     (log_file (NewOpenCache 10 true EmptyString))
                   = Some []) by reflexivity.
  destruct (log_fidelity session_run (NewOpenCache 10 true EmptyString) ∅ []
              kv' fs' (reach_New _ _ _) eq_refl Hopen0 Hrun)
    as (es & Hes & Hopen & _).
  by exists kv', fs', es.
Defined.

(** ** Records through JSON *)

Lemma decode_written op k v t j :
  json_Marshal (mkLogEntry op k v t) = Some j -> in_int64 t = true ->
  json_Unmarshal (LJson j) = Some (mkLogEntry op k (decoded_value v) t).
Proof.
  unfold json_Marshal, decoded_value. simpl. intros Hj Ht. unfold ttl_field in Hj.
  destruct v; simpl in Hj; try discriminate;
    destruct (Z.eqb_spec t 0) as [->|Hne]; injection Hj as <-;
    cbn [json_of_go mbind option_bind app json_Unmarshal decode_fields];
    repeat (first [ rewrite set_field_op | rewrite set_field_key
                  | rewrite set_field_value
                  | rewrite (set_field_ttl_ms _ _ Ht) ];
            cbn [mbind option_bind Op Key Val TTLms go_of_json]);
    reflexivity.
Qed.

Lemma record_round_trip_decode e :
  in_int64 (TTLms e) = true -> json_of_go (Val e) <> None ->
  exists j, log_line e = LJson j
    /\ json_Unmarshal (LJson j)
       = Some (mkLogEntry (Op e) (Key e) (decoded_value (Val e)) (TTLms e)).
Proof.
  intros Ht Henc. destruct e as [op k v t]. simpl in *. unfold log_line.
  assert (Hj : exists j, json_Marshal (mkLogEntry op k v t) = Some j).
  { unfold json_Marshal. simpl.
    destruct v; first [ by destruct Henc | by eexists ]. }
  destruct Hj as [j Hj]. rewrite Hj. exists j. split; [done|].
  by apply decode_written.
Qed.



(** ** A TTL through the log *)

Lemma Milliseconds_floor d :
  in_int64 d = true ->
  (0 <? Milliseconds d) = (1000000 <=? d)
  /\ in_int64 (Milliseconds d) = true
  /\ (1000000 <= d ->
      wrap64 (Milliseconds d * 1000000) = d - d mod 1000000).
Proof.
  intros Hd. pose proof (in_int64_Milliseconds d Hd) as Ht.
  unfold in_int64 in Hd. apply andb_true_iff in Hd as [Hlo Hhi].
  apply Z.leb_le in Hlo. apply Z.ltb_lt in Hhi.
  unfold Milliseconds, Millisecond in *. split_and!; [|done|].
  - destruct (Z.leb_spec 1000000 d) as [Hge|Hlt].
    + apply Z.ltb_lt. rewrite Z.quot_div_nonneg by lia.
      apply Z.div_str_pos. lia.
    + apply Z.ltb_ge. destruct (Z.le_gt_cases 0 d).
      * rewrite Z.quot_small; lia.
      * pose proof (Z.quot_pos (- d) 1000000).
        rewrite Z.quot_opp_l in * by lia. lia.
  - intros Hge. rewrite Z.quot_div_nonneg by lia.
    pose proof (Z.div_mod d 1000000). pose proof (Z.mod_pos_bound d 1000000).
    rewrite wrap64_small; lia.
Qed.



(** ** Lines that do nothing, and the clock *)

Lemma replay_lines_filter ls : forall clock i clock' i' kvA kvB fsA fsB,
  wf kvA -> wf kvB -> Persistent kvA = false -> Persistent kvB = false ->
  erase kvA = erase kvB ->
  existsb is_overlong ls = false ->
  erase (replay_lines clock i ls kvA fsA).1.2
  = erase (replay_lines clock' i' (List.filter effective ls) kvB fsB).1.2
  /\ (replay_lines clock i ls kvA fsA).1.1 = Return None
  /\ (replay_lines clock' i' (List.filter effective ls) kvB fsB).1.1
     = Return None.
Proof.
  induction ls as [|l ls IH];
    intros clock i clock' i' kvA kvB fsA fsB HwA HwB HpA HpB Herase Hlong;
    [done|].
  simpl in Hlong. apply orb_false_iff in Hlong as [Hl Hlong].
  change (List.filter effective (l :: ls))
    with (if effective l then l :: List.filter effective ls
          else List.filter effective ls).
  assert (Heff : effective l
                 = match json_Unmarshal l with
                   | Some e => String.eqb (Op e) "SET"
                               || String.eqb (Op e) "DELETE"
                   | None => false
                   end) by reflexivity.
  destruct (json_Unmarshal l) as [e|] eqn:Hdec.
  - rewrite (replay_lines_decoded clock i l ls e kvA fsA Hdec).
    destruct (String.eqb (Op e) "SET") eqn:Hset; cbn [orb] in Heff;
      [rewrite Heff|].
    + rewrite (replay_lines_decoded clock' i' l _ e kvB fsB Hdec), Hset.
      set (ttl := if 0 <? TTLms e then _ else _).
      pose proof (wf_Set kvA fsA (clock i) (KString (Key e)) (Val e) ttl HwA).
      pose proof (wf_Set kvB fsB (clock' i') (KString (Key e)) (Val e) ttl
                    HwB).
      pose proof (Set_Persistent kvA fsA (clock i) (KString (Key e)) (Val e)
                    ttl).
      pose proof (Set_Persistent kvB fsB (clock' i') (KString (Key e))
                    (Val e) ttl).
      pose proof (erase_sim_Set kvB kvA fsB fsA (clock' i') (clock i)
                    (KString (Key e)) (Val e) ttl ttl Herase).
      destruct (Set_off_returns kvA fsA (clock i) (KString (Key e)) (Val e)
                  ttl HwA HpA) as [bA HbA].
      destruct (Set_off_returns kvB fsB (clock' i') (KString (Key e)) (Val e)
                  ttl HwB HpB) as [bB HbB].
      destruct (Set_ kvA fsA (clock i) (KString (Key e)) (Val e) ttl)
        as [[[?|?] kvA1] fsA1]; [|done].
      destruct (Set_ kvB fsB (clock' i') (KString (Key e)) (Val e) ttl)
        as [[[?|?] kvB1] fsB1]; [|done].
      simpl in *. apply IH; congruence.
    + destruct (String.eqb (Op e) "DELETE") eqn:Hdel; rewrite Heff.
      * rewrite (replay_lines_decoded clock' i' l _ e kvB fsB Hdec), Hset,
          Hdel.
        pose proof (wf_Delete kvA fsA (KString (Key e)) HwA).
        pose proof (wf_Delete kvB fsB (KString (Key e)) HwB).
        pose proof (Delete_Persistent kvA fsA (KString (Key e))).
        pose proof (Delete_Persistent kvB fsB (KString (Key e))).
        pose proof (erase_sim_Delete kvB kvA fsB fsA (KString (Key e))
                      Herase).
        destruct (Delete_off_returns kvA fsA (KString (Key e)) HwA HpA)
          as [bA HbA].
        destruct (Delete_off_returns kvB fsB (KString (Key e)) HwB HpB)
          as [bB HbB].
        destruct (Delete kvA fsA (KString (Key e)))
          as [[[?|?] kvA1] fsA1]; [|done].
        destruct (Delete kvB fsB (KString (Key e)))
          as [[[?|?] kvB1] fsB1]; [|done].
        simpl in *. apply IH; congruence.
      * by apply IH.
  - rewrite Heff.
    destruct l as [fields|text|]; [| |done]; simpl in *; rewrite ?Hdec;
      by apply IH.
Qed.

(** X13. What a replay builds does not depend on the lines it cannot use,
    nor on when it runs, nor on the disk: for a log without an overlong
    line, replaying it into a reachable cache gives the same index map and
    the same keys and values, in the same recency order, as replaying
    only the lines that decode to a SET or a DELETE, at any other time and
    over any other disk, and both replays end without an error. *)
Theorem replay_ignores_noise kv fs clock i fs' clock' i' ls :
  reachable kv -> Persistent kv = false ->
  existsb is_overlong ls = false ->
  contents (replay_lines clock i ls kv fs).1.2
  = contents (replay_lines clock' i' (List.filter effective ls) kv fs').1.2
  /\ Cache (replay_lines clock i ls kv fs).1.2
     = Cache (replay_lines clock' i' (List.filter effective ls) kv fs').1.2
  /\ (replay_lines clock i ls kv fs).1.1 = Return None
  /\ (replay_lines clock' i' (List.filter effective ls) kv fs').1.1
     = Return None.
Proof.
  intros Hr Hp Hlong. pose proof (reachable_wf _ Hr) as Hwf.
  destruct (replay_lines_filter ls clock i clock' i' kv kv fs fs'
              Hwf Hwf Hp Hp eq_refl Hlong) as (Herase & HA & HB).
  destruct (erase_contents _ _ Herase) as [Hc Hm].
  by split_and!.
Qed.

Lemma replay_ignores_noise_witness :
  contents (replay_lines (fun _ => 0) 0
              [LRaw "garbage";
               LJson [("op"%string, JStr "SET"); ("key"%string, JStr "a")];
               LJson [("op"%string, JStr "PING")]] one_key ∅).1.2
  = contents (replay_lines (fun _ => 9) 5
                [LJson [("op"%string, JStr "SET"); ("key"%string, JStr "a")]]
                one_key log_is_dir).1.2.
Proof.
  refine (proj1 (replay_ignores_noise one_key ∅ (fun _ => 0) 0%nat
                   log_is_dir (fun _ => 9) 5%nat
                   [LRaw "garbage";
                    LJson [("op"%string, JStr "SET");
                           ("key"%string, JStr "a")];
                    LJson [("op"%string, JStr "PING")]] _ _ _)).
  - apply reach_Set, reach_New.
  - reflexivity.
  - reflexivity.
Defined.

(** ** How [ReplayLog] ends *)

Lemma replay_lines_clean clock ls : forall i kv fs,
  wf kv -> Persistent kv = false -> existsb is_overlong ls = false ->
  (replay_lines clock i ls kv fs).1.1 = Return None.
Proof.
  intros i kv fs Hwf Hp Hlong.
  by destruct (replay_lines_filter ls clock i clock i kv kv fs fs
                 Hwf Hwf Hp Hp eq_refl Hlong) as (_ & ? & _).
Qed.

(** The loop over [ls1 ++ ls2], when it gets through [ls1], goes on with
    [ls2] from where [ls1] left the cache. *)
Lemma replay_lines_app clock ls1 ls2 : forall i kv fs,
  (replay_lines clock i ls1 kv fs).1.1 = Return None ->
  replay_lines clock i (ls1 ++ ls2) kv fs
  = replay_lines clock (i + length ls1) ls2
      (replay_lines clock i ls1 kv fs).1.2 (replay_lines clock i ls1 kv fs).2.
Proof.
  induction ls1 as [|l ls1 IH]; intros i kv fs Hret.
  - simpl. by rewrite Nat.add_0_r.
  - assert (Hstep : forall kv' fs',
      (replay_lines clock (S i) ls1 kv' fs').1.1 = Return None ->
      replay_lines clock (S i) (ls1 ++ ls2) kv' fs'
      = replay_lines clock (i + length (l :: ls1)) ls2
          (replay_lines clock (S i) ls1 kv' fs').1.2
          (replay_lines clock (S i) ls1 kv' fs').2).
    { intros kv' fs' H. rewrite (IH _ _ _ H). simpl.
      by rewrite Nat.add_succ_r. }
    destruct l as [fields|text|]; [| |done]; simpl in Hret |- *;
      [|by apply Hstep].
    destruct (decode_fields fields _) as [e|]; [|by apply Hstep].
    destruct (String.eqb (Op e) "SET").
    + destruct (Set_ kv fs (clock i) (KString (Key e)) (Val e) _)
        as [[[b|m] kv'] fs']; [by apply Hstep|done].
    + destruct (String.eqb (Op e) "DELETE"); [|by apply Hstep].
      destruct (Delete kv fs (KString (Key e))) as [[[b|m] kv'] fs'];
        [by apply Hstep|done].
Qed.

(** While the flag is off, what the loop returns and how it leaves the
    cache do not depend on the disk. *)
Lemma Set_off_state kv fs fs' now k v ttl :
  Persistent kv = false ->
  (Set_ kv fs now k v ttl).1 = (Set_ kv fs' now k v ttl).1.
Proof.
  intros Hp. unfold Set_. destruct (ValidateKey k); [done|].
  destruct (Cache kv !! k).
  - destruct (deref (LRU_deque kv) n); [|done]. by rewrite !persist_off.
  - rewrite !persist_off; [done|simpl; by rewrite evict_Persistent..].
Qed.

Lemma Delete_off_state kv fs fs' k :
  Persistent kv = false -> (Delete kv fs k).1 = (Delete kv fs' k).1.
Proof.
  intros Hp. unfold Delete. destruct (ValidateKey k); [done|].
  destruct (Cache kv !! k); [|done]. by rewrite !persist_off.
Qed.

Lemma replay_lines_disk clock ls : forall i kv fs fs',
  Persistent kv = false ->
  (replay_lines clock i ls kv fs).1 = (replay_lines clock i ls kv fs').1.
Proof.
  induction ls as [|l ls IH]; intros i kv fs fs' Hp; [done|].
  destruct l as [fields|text|]; simpl; [|by apply IH|done].
  destruct (decode_fields fields _) as [e|]; [|by apply IH].
  destruct (String.eqb (Op e) "SET").
  - set (ttl := if 0 <? TTLms e then _ else _).
    pose proof (Set_off_state kv fs fs' (clock i) (KString (Key e)) (Val e)
                  ttl Hp) as Hs.
    pose proof (Set_Persistent kv fs (clock i) (KString (Key e)) (Val e) ttl)
      as HP.
    destruct (Set_ kv fs (clock i) (KString (Key e)) (Val e) ttl)
      as [[r kv1] fs1].
    destruct (Set_ kv fs' (clock i) (KString (Key e)) (Val e) ttl)
      as [[r' kv1'] fs1'].
    simpl in *. injection Hs as <- <-. destruct r; [|done].
    apply IH. congruence.
  - destruct (String.eqb (Op e) "DELETE"); [|by apply IH].
    pose proof (Delete_off_state kv fs fs' (KString (Key e)) Hp) as Hs.
    pose proof (Delete_Persistent kv fs (KString (Key e))) as HP.
    destruct (Delete kv fs (KString (Key e))) as [[r kv1] fs1].
    destruct (Delete kv fs' (KString (Key e))) as [[r' kv1'] fs1'].
    simpl in *. injection Hs as <- <-. destruct r; [|done].
    apply IH. congruence.
Qed.

Lemma existsb_is_overlong ls :
  existsb is_overlong ls = true ->
  exists ls1 ls2, ls = ls1 ++ LOverlong :: ls2
    /\ existsb is_overlong ls1 = false.
Proof.
  induction ls as [|l ls IH]; [done|]. simpl.
  destruct l as [fields|text|]; simpl.
  - intros H. destruct (IH H) as (ls1 & ls2 & -> & H1).
    by exists (LJson fields :: ls1), ls2.
  - intros H. destruct (IH H) as (ls1 & ls2 & -> & H1).
    by exists (LRaw text :: ls1), ls2.
  - intros _. by exists [], ls.
Qed.

Lemma with_Persistent_twice kv :
  with_Persistent (with_Persistent kv false) (Persistent kv) = kv.
Proof. by destruct kv. Qed.

(** X14. On a reachable cache [ReplayLog] always returns, and what it
    returns can be read off the disk: the open error when the file is
    missing, the read error when the path is a directory, the scanner's
    error when some line is overlong, and no error otherwise. When the
    file is missing or a directory the cache is left exactly as it was;
    when a line is overlong the cache ends as if the file stopped just
    before the first such line: no later line is applied. *)
Theorem ReplayLog_outcome kv fs clock filename :
  reachable kv ->
  (ReplayLog kv fs clock filename).1.1 = Return (replay_error fs filename)
  /\ (fs !! filename = None \/ fs !! filename = Some Dir ->
      (ReplayLog kv fs clock filename).1.2 = kv)
  /\ (forall ls1 ls2,
        fs !! filename = Some (File (ls1 ++ LOverlong :: ls2)) ->
        existsb is_overlong ls1 = false ->
        (ReplayLog kv fs clock filename).1.2
        = (ReplayLog kv (<[filename := File ls1]> fs) clock filename).1.2).
Proof.
  intros Hr. pose proof (reachable_wf _ Hr) as Hwf.
  pose proof (wf_with_Persistent kv false Hwf) as Hwf0.
  split_and!.
  - unfold ReplayLog, Open, replay_error.
    destruct (fs !! filename) as [[|ls]|]; [done| |done].
    destruct (existsb is_overlong ls) eqn:Hlong.
    + destruct (existsb_is_overlong ls Hlong) as (ls1 & ls2 & -> & H1).
      pose proof (replay_lines_clean clock ls1 0%nat _ fs Hwf0 eq_refl H1)
        as Hret.
      rewrite (replay_lines_app clock ls1 _ 0%nat _ fs Hret). simpl.
      by destruct (replay_lines clock 0 ls1 (with_Persistent kv false) fs)
        as [[r kv2] fs2].
    + pose proof (replay_lines_clean clock ls 0%nat _ fs Hwf0 eq_refl Hlong)
        as Hret.
      by destruct (replay_lines clock 0 ls (with_Persistent kv false) fs)
        as [[r kv2] fs2].
  - unfold ReplayLog, Open. intros [-> | ->]; [done|].
    simpl. apply with_Persistent_twice.
  - intros ls1 ls2 Hfile H1. unfold ReplayLog, Open.
    rewrite Hfile, lookup_insert_eq.
    pose proof (replay_lines_clean clock ls1 0%nat _ fs Hwf0 eq_refl H1)
      as Hret.
    rewrite (replay_lines_app clock ls1 _ 0%nat _ fs Hret). simpl.
    pose proof (replay_lines_disk clock ls1 0%nat (with_Persistent kv false)
                  fs (<[filename := File ls1]> fs) eq_refl) as Hdisk.
    destruct (replay_lines clock 0 ls1 (with_Persistent kv false) fs)
      as [[r kv2] fs2].
    destruct (replay_lines clock 0 ls1 (with_Persistent kv false)
                (<[filename := File ls1]> fs)) as [[r' kv2'] fs2'].
    simpl in *. by injection Hdisk as _ <-.
Qed.

Lemma ReplayLog_outcome_witness :
  (ReplayLog one_key log_is_dir (fun _ => 0) "missing.aof").1.1
    = Return (Some ENOENT)
  /\ (ReplayLog one_key log_is_dir (fun _ => 0) "logs").1.1
     = Return (Some EISDIR)
  /\ (ReplayLog one_key log_is_dir (fun _ => 0) "logs").1.2 = one_key.
Proof.
  assert (Hr : reachable one_key) by (apply reach_Set, reach_New).
  destruct (ReplayLog_outcome one_key log_is_dir (fun _ => 0) "missing.aof"
              Hr) as (H1 & _).
  destruct (ReplayLog_outcome one_key log_is_dir (fun _ => 0) "logs" Hr)
    as (H2 & H3 & _).
  split_and!; [exact H1|exact H2|]. apply H3. by right.
Defined.

(** ** Below the capacity *)



(** ** A value JSON cannot encode *)

(** X16. A value [encoding/json] rejects is stored but not logged: on a
    persistent cache with a log that can be opened, [Set_] with a string
    key and such a value returns [true] and keeps the entry in memory,
    while the line it appends is blank, so that a replay skips it and the
    key is not restored. *)
Theorem unencodable_value_not_logged kv fs now s v ttl ls :
  reachable kv -> Persistent kv = true ->
  OpenFile_append fs (log_file kv) = Some ls ->
  json_of_go v = None ->
  (Set_ kv fs now (KString s) v ttl).1.1 = Return true
  /\ (Set_ kv fs now (KString s) v ttl).2
     = <[log_file kv := File (ls ++ [LRaw EmptyString])]> fs
  /\ effective (LRaw EmptyString) = false
  /\ exists p,
       Cache (Set_ kv fs now (KString s) v ttl).1.2 !! KString s = Some p
       /\ value <$> deref (LRU_deque (Set_ kv fs now (KString s) v ttl).1.2) p
          = Some v.
Proof.
  intros Hr Hp Hopen Henc. pose proof (reachable_wf _ Hr) as Hwf.
  pose proof (Set_returns kv fs now (KString s) v ttl Hwf (fun _ => I))
    as Hret.
  destruct (Set_stores kv fs now (KString s) v ttl Hwf eq_refl)
    as (p & Hc & Hd).
  destruct (Set_ kv fs now (KString s) v ttl) as [[r kv'] fs'] eqn:HS.
  simpl in Hret, Hc, Hd |- *. subst r.
  destruct (Set_logged kv fs now (KString s) v ttl ls kv' fs' Hwf Hp Hopen HS)
    as (e & He & -> & _).
  injection He as <-.
  split_and!; [done| |done|].
  - unfold log_line, json_Marshal. simpl. destruct v; try discriminate.
    done.
  - exists p. by rewrite Hd.
Qed.

Lemma unencodable_value_not_logged_witness :
  (Set_ (NewOpenCache 2 true "cache.aof") ∅ 0 (KString "ch") (VChan 1)
     None).2
  = {[ "cache.aof"%string := File [LRaw EmptyString] ]}.
Proof.
  refine (proj1 (proj2
    (unencodable_value_not_logged (NewOpenCache 2 true "cache.aof") ∅ 0
       "ch" (VChan 1) None [] (reach_New _ _ _) eq_refl _ eq_refl))).
  reflexivity.
Defined.
